(** * starrupture-planner: the flow-graph expansion of [plannerFlowUtils.tsx]

    A shallow embedding of [generateReactFlowData]
    (src/components/planner/plannerFlowUtils.tsx) and the properties of its
    three transformation stages: the splitting of ore excavator nodes into one
    node per configured ore source, the distribution of the base edges over
    the split nodes, and the assembly of the React Flow edges with duplicate
    suppression.  It also covers the decisions the node labels take on an
    expanded entry, and the icon candidates and the error handler of
    [BuildingImage].

    Modelling choices.
    - The function is embedded twice.  In the first embedding a JavaScript
      [number] is an exact rational ([Q]); it carries the structure of the
      transformation (which nodes and edges exist, the guards, the key map)
      and the arithmetic before rounding.  A rational model has no [Infinity]
      or [NaN], so the division [Num.div] is partial: it has no result on a
      zero divisor, and every function that divides returns an [option].
    - In the second embedding, the module [Double], a [number] is the IEEE
      binary64 value it is at run time (Rocq's primitive [float], whose
      operations the kernel evaluates as the machine does).  The statements
      about unit counts, amounts and sums of amounts whose truth depends on
      rounding are made there.
    - [Map<string, number[]>] is a [gmap string (list nat)], [Set<string>] a
      [gset string], [Record<string, OreQuality[]>] a [gmap string (list
      OreQuality)]; an [OreQuality] is the string it is at run time.
    - The arrays filled by [push] inside [forEach] are lists threaded through
      recursive functions that follow the loops.
    - [buildProductionFlow] (productionFlowBuilder.ts) and the table
      [ORE_QUALITY_RATES] (types.ts) are imported by the source file and are
      parameters here.  The Dagre layout and the JSX labels are presentation:
      a React Flow node carries the expanded entry it renders, a React Flow
      edge the item and the amount its label prints. *)

From Stdlib Require Import PrimFloat.
From Stdlib Require Import QArith Qround Ascii.
From stdpp Require Import base option list gmap strings pretty.

(** ** Numbers *)

Module Num.

Definition of_nat (n : nat) : Q := inject_Z (Z.of_nat n).

(** [x > 0] *)
Definition gt0 (x : Q) : bool := negb (Qle_bool x 0).

(** [a / b]; no rational result when [b] is zero. *)
Definition div (a b : Q) : option Q :=
  if Qeq_bool b 0 then None else Some (a / b)%Q.

(** [Math.ceil] *)
Definition ceil (x : Q) : Q := inject_Z (Qceiling x).

Definition sum (l : list Q) : Q := foldr Qplus 0%Q l.

End Num.

(** ** Data model *)

Abbreviation OreQuality := string (only parsing).

(** The fields of [ProductionNode] (types.ts) that the transformation reads or
    writes. *)
Record ProductionNode := mkProductionNode {
  buildingId : string;
  buildingName : string;
  recipeIndex : Z;
  outputItem : string;
  outputAmount : Q;
  buildingCount : Q;
  powerPerBuilding : Q;
  totalPower : Q
}.

(** An edge of the production flow: [{ from, to, itemId, amount }]. *)
Record ProductionEdge := mkProductionEdge {
  edge_from : string;
  edge_to : string;
  edge_itemId : string;
  edge_amount : Q
}.

Record ProductionFlow := mkProductionFlow {
  flow_nodes : list ProductionNode;
  flow_edges : list ProductionEdge
}.

(** The first argument of [buildProductionFlow]. *)
Record ProductionFlowParams := mkProductionFlowParams {
  pf_targetItemId : string;
  pf_targetAmount : Q;
  pf_oreQualityByItem : gmap string OreQuality
}.

(** The transformation inputs of [FlowDataGenerationParams]; the colour
    functions, the item catalogue and the callbacks only reach the labels. *)
Record FlowDataGenerationParams := mkFlowDataGenerationParams {
  targetItemId : string;
  targetAmount : Q;
  oreSourcesByItem : gmap string (list OreQuality)
}.

(** An element of the array [expandedNodes]. *)
Record ExpandedNode := mkExpandedNode {
  node : ProductionNode;
  originalKey : string;
  sourceIndex : option nat;
  sourceCount : option nat;
  sourceQuality : option OreQuality
}.

(** An element of the array [expandedEdges]. *)
Record ExpandedEdge := mkExpandedEdge {
  fromIndex : nat;
  toIndex : nat;
  itemId : string;
  amount : Q
}.

(** The two structures the first loop fills. *)
Record Expansion := mkExpansion {
  expandedNodes : list ExpandedNode;
  nodeKeyToExpandedIndexes : gmap string (list nat)
}.

Record FlowNode := mkFlowNode {
  node_id : string;
  node_entry : ExpandedNode;
  node_totalPowerConsumption : Q
}.

Record FlowEdge := mkFlowEdge {
  id : string;
  source : string;
  target : string;
  label_itemId : string;
  label_amount : Q
}.

Record FlowData := mkFlowData {
  nodes : list FlowNode;
  edges : list FlowEdge
}.

(** ** The transformation *)

(** [targetAmount > 0 ? targetAmount : 1] *)
Definition validAmount (targetAmount : Q) : Q :=
  if Num.gt0 targetAmount then targetAmount else 1%Q.

(** [Object.fromEntries(Object.entries(oreSourcesByItem).map(([itemId, sources])
    => [itemId, sources[0] ?? 'normal']))] *)
Definition oreQualityByItem (oreSourcesByItem : gmap string (list OreQuality))
    : gmap string OreQuality :=
  (λ sources : list OreQuality, default "normal" (sources !! 0%nat))
    <$> oreSourcesByItem.

Definition getOreSources (oreSourcesByItem : gmap string (list OreQuality))
    (itemId : string) : list OreQuality :=
  match oreSourcesByItem !! itemId with
  | Some sources => if decide (0 < length sources)%nat then sources else ["normal"]
  | None => ["normal"]
  end.

(** [`${node.buildingId}_${node.recipeIndex}_${node.outputItem}`] *)
Definition nodeKey (n : ProductionNode) : string :=
  buildingId n +:+ "_" +:+ pretty (recipeIndex n) +:+ "_" +:+ outputItem n.

(** [node.buildingCount * node.outputAmount] *)
Definition totalDemand (n : ProductionNode) : Q :=
  (buildingCount n * outputAmount n)%Q.

(** [`node_${index}`] *)
Definition nodeId (index : nat) : string := "node_" +:+ pretty index.

(** [`${fromNodeId}-${toNodeId}-${edge.itemId}`] *)
Definition edgeId (e : ExpandedEdge) : string :=
  nodeId (fromIndex e) +:+ "-" +:+ nodeId (toIndex e) +:+ "-" +:+ itemId e.

(** The edges the two nested loops over [fromIndexes] and [toIndexes] push:
    one per pair of the cartesian product, in the order of the loops. *)
Definition fanOut (item : string) (amt : Q) (fromIndexes toIndexes : list nat)
    : list ExpandedEdge :=
  (λ ft : nat * nat, mkExpandedEdge ft.1 ft.2 item amt)
    <$> list_prod fromIndexes toIndexes.

(** No character of the string is the separator ["-"] of an edge id. *)
Fixpoint dashFree (s : string) : bool :=
  match s with
  | EmptyString => true
  | String c rest => negb (Ascii.eqb c "-"%char) && dashFree rest
  end.

(** The demand an expanded node serves: its unit count times the amount one
    unit yields, the product the source calls [totalDemand] on a base node. *)
Definition servedDemand (e : ExpandedNode) : Q := totalDemand (node e).

(** Every index stored in the key map is an index of [expandedNodes]. *)
Definition indexesBounded (st : Expansion) : Prop :=
  ∀ (key : string) (indexes : list nat) (i : nat),
    nodeKeyToExpandedIndexes st !! key = Some indexes →
    i ∈ indexes → (i < length (expandedNodes st))%nat.

(** The edges the body of the loop over [flowEdges] pushes for one edge. *)
Definition emittedFor (m : gmap string (list nat)) (e : ProductionEdge)
    : list ExpandedEdge :=
  let fromIndexes := default [] (m !! edge_from e) in
  let toIndexes := default [] (m !! edge_to e) in
  if decide (length fromIndexes = 0%nat ∨ length toIndexes = 0%nat) then []
  else fanOut (edge_itemId e)
         (edge_amount e * (1 / Num.of_nat (length fromIndexes)))%Q
         fromIndexes toIndexes.

(** No index is stored twice under one key. *)
Definition indexesNoDup (st : Expansion) : Prop :=
  ∀ (key : string) (indexes : list nat),
    nodeKeyToExpandedIndexes st !! key = Some indexes → NoDup indexes.

(** What identifies a base edge for the flow graph. *)
Definition edgeTriple (e : ProductionEdge) : string * string * string :=
  (edge_from e, edge_to e, edge_itemId e).

(** *** The labels

    The decisions the JSX of a node takes on the expanded entry. *)

Definition isOrbitalCargoLauncher (n : ProductionNode) : bool :=
  bool_decide (buildingId n = "orbital_cargo_launcher").

(** [node.buildingId === 'ore_excavator'] *)
Definition isOreExcavator (n : ProductionNode) : bool :=
  bool_decide (buildingId n = "ore_excavator").

(** [isOreExcavator ? (sourceQuality ?? 'normal') : null] *)
Definition oreQuality (e : ExpandedNode) : option OreQuality :=
  if isOreExcavator (node e) then Some (default "normal" (sourceQuality e)) else None.

(** [isOreExcavator && sourceCount && sourceCount > 1]: the condition under
    which the button that removes an ore source is rendered. *)
Definition showsRemoveSource (e : ExpandedNode) : bool :=
  isOreExcavator (node e)
  && match sourceCount e with
     | Some c => bool_decide (c ≠ 0%nat) && bool_decide (1 < c)%nat
     | None => false
     end.

(** [sourceIndex ?? 0]: the index the callbacks of a node are called with. *)
Definition callbackIndex (e : ExpandedNode) : nat := default 0%nat (sourceIndex e).

(** ** [BuildingImage] *)

(** [s.includes(c)] for a string [c] of one character. *)
Fixpoint includes (c : ascii) (s : string) : bool :=
  match s with
  | EmptyString => false
  | String x rest => Ascii.eqb x c || includes c rest
  end.

(** [s.replace(/c/g, d)] for one-character [c] and [d]. *)
Fixpoint replaceAll (c d : ascii) (s : string) : string :=
  match s with
  | EmptyString => EmptyString
  | String x rest => String (if Ascii.eqb x c then d else x) (replaceAll c d rest)
  end.

(** [buildingId.includes('-') ? buildingId.replace(/-/g, '_')
                              : buildingId.replace(/_/g, '-')] *)
Definition normalizedId (bid : string) : string :=
  if includes "-"%char bid then replaceAll "-"%char "_"%char bid
  else replaceAll "_"%char "-"%char bid.

(** [buildingId === normalizedId ? [buildingId] : [buildingId, normalizedId]] *)
Definition variants (bid : string) : list string :=
  if decide (bid = normalizedId bid) then [bid] else [bid; normalizedId bid].

(** [`/icons/buildings/${id}.jpg`] *)
Definition iconPath (id : string) : string := "/icons/buildings/" +:+ id +:+ ".jpg".

Definition candidates (bid : string) : list string := iconPath <$> variants bid.

(** [candidates[0]]; [None] stands for [undefined]. *)
Definition imagePath (bid : string) : option string := candidates bid !! 0%nat.

(** The part of the [img] element the error handler reads and writes:
    [dataset.iconIndex] (absent at first; the handler only stores the decimal
    text of an index in it, which is kept here as the index), [src], and
    whether [style.display] has been set to ['none']. *)
Record ImgTarget := mkImgTarget {
  iconIndex : option nat;
  src : option string;
  displayNone : bool
}.

(** The element as rendered: [src={imagePath}]. *)
Definition renderedImg (bid : string) : ImgTarget :=
  mkImgTarget None (imagePath bid) false.

(** The handler [onError] of the [img] element. *)
Definition onError (cands : list string) (target : ImgTarget) : ImgTarget :=
  let currentIndex := default 0%nat (iconIndex target) in
  let nextIndex := (currentIndex + 1)%nat in
  if decide (nextIndex < length cands)%nat
  then mkImgTarget (Some nextIndex) (cands !! nextIndex) (displayNone target)
  else mkImgTarget (iconIndex target) (src target) true.

(** Every index stored under a key is the index of an expanded node that
    came from the node of that key. *)
Definition keysSound (st : Expansion) : Prop :=
  ∀ (key : string) (indexes : list nat) (i : nat),
    nodeKeyToExpandedIndexes st !! key = Some indexes → i ∈ indexes →
    ∃ e, expandedNodes st !! i = Some e ∧ originalKey e = key.

(** ** The expansion and the distribution in doubles

    The loops of lines 86-151 again, with every [number] a binary64 value.
    Division by zero is defined in doubles, so nothing here is partial. *)

Module Double.

(** The double of an array length. *)
Fixpoint of_nat (n : nat) : float :=
  match n with
  | O => 0%float
  | S k => (of_nat k + 1)%float
  end.

Definition two52 : float := 0x1p52%float.

(** [Math.ceil].  Below [2^52] in magnitude, adding and subtracting [2^52]
    rounds to the nearest integer, which is then corrected upwards; every
    double from [2^52] on is an integer, and infinities and [NaN] are kept. *)
Definition ceil (x : float) : float :=
  if (abs x <? two52)%float then
    if (0 <? x)%float then
      let r := ((x + two52) - two52)%float in
      if (r <? x)%float then (r + 1)%float else r
    else if (x <? 0)%float then
      let a := abs x in
      let r := ((a + two52) - two52)%float in
      (- (if (a <? r)%float then (r - 1)%float else r))%float
    else x
  else x.

Record ProductionNode := mkProductionNode {
  buildingId : string;
  buildingName : string;
  recipeIndex : Z;
  outputItem : string;
  outputAmount : float;
  buildingCount : float;
  powerPerBuilding : float;
  totalPower : float
}.

Record ProductionEdge := mkProductionEdge {
  edge_from : string;
  edge_to : string;
  edge_itemId : string;
  edge_amount : float
}.

Record ExpandedNode := mkExpandedNode {
  node : ProductionNode;
  originalKey : string;
  sourceIndex : option nat;
  sourceCount : option nat;
  sourceQuality : option OreQuality
}.

Record ExpandedEdge := mkExpandedEdge {
  fromIndex : nat;
  toIndex : nat;
  itemId : string;
  amount : float
}.

Record Expansion := mkExpansion {
  expandedNodes : list ExpandedNode;
  nodeKeyToExpandedIndexes : gmap string (list nat)
}.

(** [`${node.buildingId}_${node.recipeIndex}_${node.outputItem}`] *)
Definition nodeKey (n : ProductionNode) : string :=
  buildingId n +:+ "_" +:+ pretty (recipeIndex n) +:+ "_" +:+ outputItem n.

(** [node.buildingCount * node.outputAmount] *)
Definition totalDemand (n : ProductionNode) : float :=
  (buildingCount n * outputAmount n)%float.

(** The demand an expanded node serves: its unit count times its yield. *)
Definition servedDemand (e : ExpandedNode) : float := totalDemand (node e).

(** The sum of a list of doubles, added from left to right from 0. *)
Definition sum (l : list float) : float := foldl PrimFloat.add 0%float l.

Definition emptyExpansion : Expansion := mkExpansion [] ∅.

Section Expander.

Variable ORE_QUALITY_RATES : OreQuality → float.

(** [outputRate > 0 ? (totalDemand * share) / outputRate : 0] *)
Definition splitBuildingCount (demand share outputRate : float) : float :=
  if (0 <? outputRate)%float then (demand * share / outputRate)%float else 0%float.

(** [{ ...node, outputAmount: outputRate, buildingCount, totalPower }] *)
Definition withSplit (n : ProductionNode) (outputRate count power : float)
    : ProductionNode :=
  mkProductionNode (buildingId n) (buildingName n) (recipeIndex n)
    (outputItem n) outputRate count (powerPerBuilding n) power.

(** The entry the body of [sources.forEach] pushes. *)
Definition sourceEntry (n : ProductionNode) (key : string) (demand share : float)
    (count : nat) (quality : OreQuality) (index : nat) : ExpandedNode :=
  let outputRate := ORE_QUALITY_RATES quality in
  let buildingCount' := splitBuildingCount demand share outputRate in
  let totalPower' := (ceil buildingCount' * powerPerBuilding n)%float in
  mkExpandedNode (withSplit n outputRate buildingCount' totalPower')
    key (Some index) (Some count) (Some quality).

(** The body of [sources.forEach((quality, sourceIndex) => ...)]. *)
Definition pushSource (n : ProductionNode) (key : string) (demand share : float)
    (count : nat) (quality : OreQuality) (index : nat) (st : Expansion) : Expansion :=
  let expandedIndex := length (expandedNodes st) in
  let indexes := default [] (nodeKeyToExpandedIndexes st !! key) in
  mkExpansion
    (expandedNodes st ++ [sourceEntry n key demand share count quality index])
    (<[key := indexes ++ [expandedIndex]]> (nodeKeyToExpandedIndexes st)).

Fixpoint forEachSource (n : ProductionNode) (key : string) (demand share : float)
    (count : nat) (sources : list OreQuality) (index : nat) (st : Expansion)
    : Expansion :=
  match sources with
  | [] => st
  | quality :: rest =>
      forEachSource n key demand share count rest (S index)
        (pushSource n key demand share count quality index st)
  end.

(** [sources.length > 0 ? 1 / sources.length : 1] *)
Definition sourceShare (sources : list OreQuality) : float :=
  if decide (0 < length sources)%nat then (1 / of_nat (length sources))%float
  else 1%float.

(** The body of [flowNodes.forEach((node) => ...)]. *)
Definition expandNode (oreSources : gmap string (list OreQuality))
    (n : ProductionNode) (st : Expansion) : Expansion :=
  let key := nodeKey n in
  if decide (buildingId n = "ore_excavator") then
    let sources := getOreSources oreSources (outputItem n) in
    let demand := totalDemand n in
    let share := sourceShare sources in
    forEachSource n key demand share (length sources) sources 0 st
  else
    let expandedIndex := length (expandedNodes st) in
    mkExpansion
      (expandedNodes st ++ [mkExpandedNode n key None None None])
      (<[key := [expandedIndex]]> (nodeKeyToExpandedIndexes st)).

Fixpoint expandNodes (oreSources : gmap string (list OreQuality))
    (flowNodes : list ProductionNode) (st : Expansion) : Expansion :=
  match flowNodes with
  | [] => st
  | n :: rest => expandNodes oreSources rest (expandNode oreSources n st)
  end.

(** The entries [forEachSource] pushes, in origin order. *)
Fixpoint sourceEntries (n : ProductionNode) (key : string) (demand share : float)
    (count : nat) (sources : list OreQuality) (index : nat) : list ExpandedNode :=
  match sources with
  | [] => []
  | quality :: rest =>
      sourceEntry n key demand share count quality index
        :: sourceEntries n key demand share count rest (S index)
  end.

End Expander.

(** [toIndexes.forEach((toIndex) => expandedEdges.push({...}))] *)
Fixpoint forEachTo (fromIdx : nat) (item : string) (amt : float)
    (toIndexes : list nat) (acc : list ExpandedEdge) : list ExpandedEdge :=
  match toIndexes with
  | [] => acc
  | toIdx :: rest =>
      forEachTo fromIdx item amt rest (acc ++ [mkExpandedEdge fromIdx toIdx item amt])
  end.

(** [fromIndexes.forEach((fromIndex) => toIndexes.forEach(...))] *)
Fixpoint forEachFrom (item : string) (amt : float) (fromIndexes toIndexes : list nat)
    (acc : list ExpandedEdge) : list ExpandedEdge :=
  match fromIndexes with
  | [] => acc
  | fromIdx :: rest =>
      forEachFrom item amt rest toIndexes (forEachTo fromIdx item amt toIndexes acc)
  end.

(** The body of [flowEdges.forEach((edge) => ...)]. *)
Definition distributeEdge (m : gmap string (list nat)) (e : ProductionEdge)
    (acc : list ExpandedEdge) : list ExpandedEdge :=
  let fromIndexes := default [] (m !! edge_from e) in
  let toIndexes := default [] (m !! edge_to e) in
  if decide (length fromIndexes = 0%nat ∨ length toIndexes = 0%nat) then acc
  else
    let share := (1 / of_nat (length fromIndexes))%float in
    forEachFrom (edge_itemId e) (edge_amount e * share)%float fromIndexes toIndexes acc.

Fixpoint distributeEdges (m : gmap string (list nat)) (flowEdges : list ProductionEdge)
    (acc : list ExpandedEdge) : list ExpandedEdge :=
  match flowEdges with
  | [] => acc
  | e :: rest => distributeEdges m rest (distributeEdge m e acc)
  end.

(** The edges the two nested loops push: one per pair of the cartesian
    product, in the order of the loops. *)
Definition fanOut (item : string) (amt : float) (fromIndexes toIndexes : list nat)
    : list ExpandedEdge :=
  (λ ft : nat * nat, mkExpandedEdge ft.1 ft.2 item amt)
    <$> list_prod fromIndexes toIndexes.

(** Sample inputs in doubles: the rates 5, 10 and 20 of ["impure"],
    ["normal"] and ["pure"], 0 for any other tag; an ore excavator with
    [count] units of output 10. *)
Definition sampleRates (q : OreQuality) : float :=
  if decide (q = "impure") then 5%float
  else if decide (q = "normal") then 10%float
  else if decide (q = "pure") then 20%float
  else 0%float.

Definition sampleExcavator (count : float) : ProductionNode :=
  mkProductionNode "ore_excavator" "Ore Excavator" 0 "iron_ore" 10 count 4
    (ceil count * 4)%float.

Definition sampleSmelter : ProductionNode :=
  mkProductionNode "smelter" "Smelter" 0 "iron_bar" 3 3 5 15.

Definition sampleEdge (amt : float) : ProductionEdge :=
  mkProductionEdge "ore_excavator_0_iron_ore" "smelter_0_iron_bar" "iron_ore" amt.

(** An edge that ends in the excavator node. *)
Definition sampleBackEdge (amt : float) : ProductionEdge :=
  mkProductionEdge "smelter_0_iron_bar" "ore_excavator_0_iron_ore" "iron_bar" amt.

End Double.

(** ** Sample inputs

    A rate table and small production flows on which the statements below are
    run.  The rate table gives ["impure"] 5, ["normal"] 10, ["pure"] 20 and
    any other tag (such as ["depleted"]) the rate 0. *)

Definition sampleRates (q : OreQuality) : Q :=
  if decide (q = "impure") then 5%Q
  else if decide (q = "normal") then 10%Q
  else if decide (q = "pure") then 20%Q
  else 0%Q.

(** An ore excavator node with [count] units of output 10 and power 4. *)
Definition sampleExcavator (count : Q) : ProductionNode :=
  mkProductionNode "ore_excavator" "Ore Excavator" 0 "iron_ore" 10 count 4
    (Num.ceil count * 4)%Q.

Definition sampleSmelter : ProductionNode :=
  mkProductionNode "smelter" "Smelter" 0 "iron_bar" 3 3 5 15.

Definition sampleAssembler : ProductionNode :=
  mkProductionNode "assembler" "Assembler" 1 "iron_plate" 2 5 8 40.

Definition sampleSources (sources : list OreQuality) : gmap string (list OreQuality) :=
  {["iron_ore" := sources]}.

(** The excavator feeds the smelter [amt] of ore. *)
Definition sampleFlow (count amt : Q) : ProductionFlow :=
  mkProductionFlow [sampleExcavator count; sampleSmelter]
    [mkProductionEdge "ore_excavator_0_iron_ore" "smelter_0_iron_bar" "iron_ore" amt].

(** A flow whose edge ends in the excavator node. *)
Definition sampleBackFlow (amt : Q) : ProductionFlow :=
  mkProductionFlow [sampleSmelter; sampleExcavator 1]
    [mkProductionEdge "smelter_0_iron_bar" "ore_excavator_0_iron_ore" "iron_bar" amt].

(** The key map of a source split three ways that feeds one smelter. *)
Definition sampleKeyMap : gmap string (list nat) :=
  {["ore_excavator_0_iron_ore" := [0; 1; 2]%nat; "smelter_0_iron_bar" := [3%nat]]}.

Section Pipeline.

Context {Catalog : Type}.
Variable ORE_QUALITY_RATES : OreQuality → Q.
Variable buildProductionFlow : ProductionFlowParams → Catalog → ProductionFlow.

(** *** Source expansion (the loop over [flowNodes]) *)

(** [outputRate > 0 ? (totalDemand * share) / outputRate : 0] *)
Definition splitBuildingCount (demand share outputRate : Q) : option Q :=
  if Num.gt0 outputRate then Num.div (demand * share) outputRate else Some 0%Q.

(** [{ ...node, outputAmount: outputRate, buildingCount, totalPower }] *)
Definition withSplit (n : ProductionNode) (outputRate count power : Q)
    : ProductionNode :=
  mkProductionNode (buildingId n) (buildingName n) (recipeIndex n)
    (outputItem n) outputRate count (powerPerBuilding n) power.

(** The body of [sources.forEach((quality, sourceIndex) => ...)]. *)
Definition pushSource (n : ProductionNode) (key : string) (demand share : Q)
    (count : nat) (quality : OreQuality) (index : nat) (st : Expansion)
    : option Expansion :=
  let outputRate := ORE_QUALITY_RATES quality in
  count' ← splitBuildingCount demand share outputRate;
  let power := (Num.ceil count' * powerPerBuilding n)%Q in
  let splitNode := withSplit n outputRate count' power in
  let expandedIndex := length (expandedNodes st) in
  let indexes := default [] (nodeKeyToExpandedIndexes st !! key) in
  Some (mkExpansion
          (expandedNodes st ++
             [mkExpandedNode splitNode key (Some index) (Some count) (Some quality)])
          (<[key := indexes ++ [expandedIndex]]> (nodeKeyToExpandedIndexes st))).

Fixpoint forEachSource (n : ProductionNode) (key : string) (demand share : Q)
    (count : nat) (sources : list OreQuality) (index : nat) (st : Expansion)
    : option Expansion :=
  match sources with
  | [] => Some st
  | quality :: rest =>
      st' ← pushSource n key demand share count quality index st;
      forEachSource n key demand share count rest (S index) st'
  end.

(** [sources.length > 0 ? 1 / sources.length : 1] *)
Definition sourceShare (sources : list OreQuality) : option Q :=
  if decide (0 < length sources)%nat
  then Num.div 1 (Num.of_nat (length sources))
  else Some 1%Q.

(** The body of [flowNodes.forEach((node) => ...)]. *)
Definition expandNode (oreSources : gmap string (list OreQuality))
    (n : ProductionNode) (st : Expansion) : option Expansion :=
  let key := nodeKey n in
  if decide (buildingId n = "ore_excavator") then
    let sources := getOreSources oreSources (outputItem n) in
    let demand := totalDemand n in
    share ← sourceShare sources;
    forEachSource n key demand share (length sources) sources 0 st
  else
    let expandedIndex := length (expandedNodes st) in
    Some (mkExpansion
            (expandedNodes st ++ [mkExpandedNode n key None None None])
            (<[key := [expandedIndex]]> (nodeKeyToExpandedIndexes st))).

Fixpoint expandNodes (oreSources : gmap string (list OreQuality))
    (flowNodes : list ProductionNode) (st : Expansion) : option Expansion :=
  match flowNodes with
  | [] => Some st
  | n :: rest =>
      st' ← expandNode oreSources n st;
      expandNodes oreSources rest st'
  end.

Definition emptyExpansion : Expansion := mkExpansion [] ∅.

(** *** Edge distribution (the loop over [flowEdges]) *)

(** [toIndexes.forEach((toIndex) => expandedEdges.push({...}))] *)
Fixpoint forEachTo (fromIdx : nat) (item : string) (amt : Q)
    (toIndexes : list nat) (acc : list ExpandedEdge) : list ExpandedEdge :=
  match toIndexes with
  | [] => acc
  | toIdx :: rest =>
      forEachTo fromIdx item amt rest (acc ++ [mkExpandedEdge fromIdx toIdx item amt])
  end.

(** [fromIndexes.forEach((fromIndex) => toIndexes.forEach(...))] *)
Fixpoint forEachFrom (item : string) (amt : Q) (fromIndexes toIndexes : list nat)
    (acc : list ExpandedEdge) : list ExpandedEdge :=
  match fromIndexes with
  | [] => acc
  | fromIdx :: rest =>
      forEachFrom item amt rest toIndexes (forEachTo fromIdx item amt toIndexes acc)
  end.

(** The body of [flowEdges.forEach((edge) => ...)]. *)
Definition distributeEdge (m : gmap string (list nat)) (e : ProductionEdge)
    (acc : list ExpandedEdge) : option (list ExpandedEdge) :=
  let fromIndexes := default [] (m !! edge_from e) in
  let toIndexes := default [] (m !! edge_to e) in
  if decide (length fromIndexes = 0%nat ∨ length toIndexes = 0%nat) then Some acc
  else
    share ← Num.div 1 (Num.of_nat (length fromIndexes));
    Some (forEachFrom (edge_itemId e) (edge_amount e * share)%Q
            fromIndexes toIndexes acc).

Fixpoint distributeEdges (m : gmap string (list nat)) (flowEdges : list ProductionEdge)
    (acc : list ExpandedEdge) : option (list ExpandedEdge) :=
  match flowEdges with
  | [] => Some acc
  | e :: rest =>
      acc' ← distributeEdge m e acc;
      distributeEdges m rest acc'
  end.

(** *** Assembly *)

(** [expandedNodes.reduce((sum, entry) => sum + entry.node.totalPower, 0)] *)
Definition totalPowerConsumption (entries : list ExpandedNode) : Q :=
  foldl (λ sum entry, (sum + totalPower (node entry))%Q) 0%Q entries.

(** [expandedNodes.map((entry, index) => ({ id: `node_${index}`, ... }))] *)
Definition reactFlowNodes (entries : list ExpandedNode) : list FlowNode :=
  imap (λ index entry, mkFlowNode (nodeId index) entry (totalPowerConsumption entries))
    entries.

Definition reactFlowEdge (e : ExpandedEdge) : FlowEdge :=
  mkFlowEdge (edgeId e) (nodeId (fromIndex e)) (nodeId (toIndex e))
    (itemId e) (amount e).

(** The loop [expandedEdges.forEach((edge) => ...)] over [edgeIdSet] and
    [reactFlowEdges]. *)
Fixpoint forEachExpandedEdge (es : list ExpandedEdge) (edgeIdSet : gset string)
    (acc : list FlowEdge) : list FlowEdge :=
  match es with
  | [] => acc
  | e :: rest =>
      if decide (edgeId e ∈ edgeIdSet) then forEachExpandedEdge rest edgeIdSet acc
      else forEachExpandedEdge rest ({[edgeId e]} ∪ edgeIdSet) (acc ++ [reactFlowEdge e])
  end.

Definition reactFlowEdges (es : list ExpandedEdge) : list FlowEdge :=
  forEachExpandedEdge es ∅ [].

(** *** The whole function *)

Definition productionFlowParams (p : FlowDataGenerationParams) : ProductionFlowParams :=
  mkProductionFlowParams (targetItemId p) (validAmount (targetAmount p))
    (oreQualityByItem (oreSourcesByItem p)).

Definition generateReactFlowData (p : FlowDataGenerationParams) (catalog : Catalog)
    : option FlowData :=
  let flow := buildProductionFlow (productionFlowParams p) catalog in
  st ← expandNodes (oreSourcesByItem p) (flow_nodes flow) emptyExpansion;
  expandedEdges ← distributeEdges (nodeKeyToExpandedIndexes st) (flow_edges flow) [];
  Some (mkFlowData (reactFlowNodes (expandedNodes st)) (reactFlowEdges expandedEdges)).

(** *** The values the loops compute

    Closed forms of what the loops above push, used to state what they
    return. *)

(** The value of [splitBuildingCount]. *)
Definition splitCount (demand share outputRate : Q) : Q :=
  if Num.gt0 outputRate then (demand * share / outputRate)%Q else 0%Q.

(** The entry [pushSource] pushes. *)
Definition sourceEntry (n : ProductionNode) (key : string) (demand share : Q)
    (count : nat) (quality : OreQuality) (index : nat) : ExpandedNode :=
  let outputRate := ORE_QUALITY_RATES quality in
  let count' := splitCount demand share outputRate in
  mkExpandedNode
    (withSplit n outputRate count' (Num.ceil count' * powerPerBuilding n)%Q)
    key (Some index) (Some count) (Some quality).

(** The entries [forEachSource] pushes, in origin order. *)
Fixpoint sourceEntries (n : ProductionNode) (key : string) (demand share : Q)
    (count : nat) (sources : list OreQuality) (index : nat) : list ExpandedNode :=
  match sources with
  | [] => []
  | quality :: rest =>
      sourceEntry n key demand share count quality index
        :: sourceEntries n key demand share count rest (S index)
  end.

(** The sources whose rate passes the guard [outputRate > 0]. *)
Definition yieldingSources (sources : list OreQuality) : list OreQuality :=
  List.filter (λ q, Num.gt0 (ORE_QUALITY_RATES q)) sources.

(** The entries [expandNode] pushes for an ore excavator. *)
Definition excavatorEntries (oreSources : gmap string (list OreQuality))
    (n : ProductionNode) : list ExpandedNode :=
  let sources := getOreSources oreSources (outputItem n) in
  sourceEntries n (nodeKey n) (totalDemand n)
    (1 / Num.of_nat (length sources))%Q (length sources) sources 0.

(** The entries [expandNode] pushes for any node. *)
Definition entriesOf (oreSources : gmap string (list OreQuality))
    (n : ProductionNode) : list ExpandedNode :=
  if decide (buildingId n = "ore_excavator") then excavatorEntries oreSources n
  else [mkExpandedNode n (nodeKey n) None None None].

(** The number of entries [expandNode] pushes for a node. *)
Definition originCount (oreSources : gmap string (list OreQuality))
    (n : ProductionNode) : nat :=
  if decide (buildingId n = "ore_excavator")
  then length (getOreSources oreSources (outputItem n)) else 1%nat.

(** * Properties *)

(** ** Arithmetic of the number model *)

Lemma gt0_spec (x : Q) : Num.gt0 x = true ↔ (0 < x)%Q.
Proof.
  unfold Num.gt0. rewrite negb_true_iff. split.
  - intros H. apply Qnot_le_lt. intros Hle.
    apply Qle_bool_iff in Hle. congruence.
  - intros H. destruct (Qle_bool x 0) eqn:E; [|done].
    apply Qle_bool_iff in E. exfalso. eapply Qlt_not_le; eauto.
Qed.

Lemma gt0_false (x : Q) : Num.gt0 x = false ↔ (x <= 0)%Q.
Proof.
  unfold Num.gt0. rewrite negb_false_iff. apply Qle_bool_iff.
Qed.

Lemma div_nonzero (a b : Q) : ¬ (b == 0)%Q → Num.div a b = Some (a / b)%Q.
Proof.
  intros H. unfold Num.div. destruct (Qeq_bool b 0) eqn:E; [|done].
  apply Qeq_bool_iff in E. contradiction.
Qed.

Lemma div_zero (a b : Q) : (b == 0)%Q → Num.div a b = None.
Proof.
  intros H. unfold Num.div. apply Qeq_bool_iff in H. by rewrite H.
Qed.

Lemma of_nat_nonzero (k : nat) : (0 < k)%nat → ¬ (Num.of_nat k == 0)%Q.
Proof.
  intros Hk H. unfold Num.of_nat, Qeq in H. simpl in H. lia.
Qed.

Lemma of_nat_S (k : nat) : (Num.of_nat (S k) == 1 + Num.of_nat k)%Q.
Proof.
  unfold Num.of_nat. rewrite Nat2Z.inj_succ. unfold Z.succ.
  rewrite inject_Z_plus. ring.
Qed.

Lemma of_nat_mul (j k : nat) : (Num.of_nat (j * k) == Num.of_nat j * Num.of_nat k)%Q.
Proof.
  unfold Num.of_nat. rewrite Nat2Z.inj_mul, inject_Z_mult. reflexivity.
Qed.

Lemma sum_app (l1 l2 : list Q) : (Num.sum (l1 ++ l2) == Num.sum l1 + Num.sum l2)%Q.
Proof.
  induction l1 as [|x l1 IH]; simpl.
  - ring.
  - rewrite IH. ring.
Qed.

Lemma sum_const (c : Q) (l : list Q) :
  Forall (λ x, (x == c)%Q) l → (Num.sum l == Num.of_nat (length l) * c)%Q.
Proof.
  induction 1 as [|x l Hx _ IH].
  - simpl. unfold Num.of_nat. simpl. ring.
  - cbn [Num.sum foldr length]. fold (Num.sum l).
    rewrite IH, Hx, of_nat_S. ring.
Qed.

(** ** Source expansion *)

Lemma splitBuildingCount_eq (demand share rate : Q) :
  splitBuildingCount demand share rate = Some (splitCount demand share rate).
Proof.
  unfold splitBuildingCount, splitCount.
  destruct (Num.gt0 rate) eqn:E; [|done].
  apply gt0_spec in E. apply div_nonzero.
  intros H. rewrite H in E. by apply Qlt_irrefl in E.
Qed.

Lemma pushSource_eq n key demand share count quality index st :
  pushSource n key demand share count quality index st =
    Some (mkExpansion
            (expandedNodes st ++ [sourceEntry n key demand share count quality index])
            (<[key := default [] (nodeKeyToExpandedIndexes st !! key)
                        ++ [length (expandedNodes st)]]>
               (nodeKeyToExpandedIndexes st))).
Proof.
  unfold pushSource. rewrite splitBuildingCount_eq. reflexivity.
Qed.

Lemma pushSource_bounded n key demand share count quality index st st' :
  indexesBounded st →
  pushSource n key demand share count quality index st = Some st' →
  indexesBounded st'.
Proof.
  intros Hst. rewrite pushSource_eq. intros [= <-].
  intros k l i. simpl. rewrite length_app. simpl.
  destruct (decide (key = k)) as [->|Hne].
  - rewrite lookup_insert_eq. intros [= <-].
    rewrite elem_of_app, list_elem_of_singleton. intros [Hi| ->]; [|lia].
    destruct (nodeKeyToExpandedIndexes st !! k) as [old|] eqn:E; simpl in Hi.
    + specialize (Hst k old i E Hi). lia.
    + by apply not_elem_of_nil in Hi.
  - rewrite lookup_insert_ne by done. intros E Hi.
    specialize (Hst k l i E Hi). lia.
Qed.

Lemma forEachSource_nodes n key demand share count sources :
  ∀ index st, ∃ st',
    forEachSource n key demand share count sources index st = Some st' ∧
    expandedNodes st' =
      expandedNodes st ++ sourceEntries n key demand share count sources index.
Proof.
  induction sources as [|quality rest IH]; intros index st; simpl.
  - exists st. by rewrite app_nil_r.
  - rewrite pushSource_eq. simpl.
    destruct (IH (S index)
                (mkExpansion
                   (expandedNodes st ++ [sourceEntry n key demand share count quality index])
                   (<[key := default [] (nodeKeyToExpandedIndexes st !! key)
                               ++ [length (expandedNodes st)]]>
                      (nodeKeyToExpandedIndexes st)))) as (st' & Hrun & Hnodes).
    exists st'. split; [done|]. rewrite Hnodes. simpl. by rewrite <- app_assoc.
Qed.

Lemma forEachSource_bounded n key demand share count sources :
  ∀ index st st',
    indexesBounded st →
    forEachSource n key demand share count sources index st = Some st' →
    indexesBounded st'.
Proof.
  induction sources as [|quality rest IH]; intros index st st' Hst; simpl.
  - by intros [= <-].
  - destruct (pushSource n key demand share count quality index st) as [st1|] eqn:E;
      simpl; [|done].
    intros Hrun. eapply IH; [|exact Hrun]. eapply pushSource_bounded; eauto.
Qed.

Lemma getOreSources_nonempty (oreSources : gmap string (list OreQuality)) item :
  (0 < length (getOreSources oreSources item))%nat.
Proof.
  unfold getOreSources. destruct (oreSources !! item) as [sources|]; simpl; [|lia].
  destruct (decide (0 < length sources)%nat); simpl; lia.
Qed.

Lemma sourceShare_eq (sources : list OreQuality) :
  (0 < length sources)%nat →
  sourceShare sources = Some (1 / Num.of_nat (length sources))%Q.
Proof.
  intros H. unfold sourceShare. rewrite decide_True by done.
  apply div_nonzero. by apply of_nat_nonzero.
Qed.

Lemma length_sourceEntries n key demand share count sources :
  ∀ index, length (sourceEntries n key demand share count sources index) = length sources.
Proof.
  induction sources as [|q rest IH]; intros index; simpl; [done|]. by rewrite IH.
Qed.

Lemma lookup_sourceEntries n key demand share count sources :
  ∀ index j,
    sourceEntries n key demand share count sources index !! j =
      (λ q, sourceEntry n key demand share count q (index + j)) <$> (sources !! j).
Proof.
  induction sources as [|q rest IH]; intros index j; simpl; [done|].
  destruct j as [|j]; simpl.
  - by rewrite Nat.add_0_r.
  - rewrite IH. by rewrite Nat.add_succ_r.
Qed.

Lemma expandNode_excavator oreSources n st :
  buildingId n = "ore_excavator" →
  ∃ st', expandNode oreSources n st = Some st' ∧
         expandedNodes st' = expandedNodes st ++ excavatorEntries oreSources n.
Proof.
  intros Hb. unfold expandNode. rewrite decide_True by done.
  rewrite sourceShare_eq by apply getOreSources_nonempty. simpl.
  apply forEachSource_nodes.
Qed.

Lemma expandNode_other oreSources n st :
  buildingId n ≠ "ore_excavator" →
  expandNode oreSources n st =
    Some (mkExpansion
            (expandedNodes st ++ [mkExpandedNode n (nodeKey n) None None None])
            (<[nodeKey n := [length (expandedNodes st)]]> (nodeKeyToExpandedIndexes st))).
Proof.
  intros Hb. unfold expandNode. by rewrite decide_False.
Qed.

Lemma expandNode_total oreSources n st : is_Some (expandNode oreSources n st).
Proof.
  destruct (decide (buildingId n = "ore_excavator")) as [Hb|Hb].
  - destruct (expandNode_excavator oreSources n st Hb) as (st' & -> & _). eauto.
  - rewrite expandNode_other by done. eauto.
Qed.

Lemma expandNode_bounded oreSources n st st' :
  indexesBounded st → expandNode oreSources n st = Some st' → indexesBounded st'.
Proof.
  intros Hst. unfold expandNode.
  destruct (decide (buildingId n = "ore_excavator")) as [Hb|Hb].
  - destruct (sourceShare _) as [share|]; simpl; [|done].
    by apply forEachSource_bounded.
  - intros [= <-]. intros k l i. simpl. rewrite length_app. simpl.
    destruct (decide (nodeKey n = k)) as [->|Hne].
    + rewrite lookup_insert_eq. intros [= <-].
      rewrite list_elem_of_singleton. intros ->. lia.
    + rewrite lookup_insert_ne by done. intros E Hi.
      specialize (Hst k l i E Hi). lia.
Qed.

Lemma expandNodes_total oreSources flowNodes :
  ∀ st, is_Some (expandNodes oreSources flowNodes st).
Proof.
  induction flowNodes as [|n rest IH]; intros st; simpl; [eauto|].
  destruct (expandNode_total oreSources n st) as [st1 ->]. simpl. apply IH.
Qed.

Lemma expandNodes_bounded oreSources flowNodes :
  ∀ st st', indexesBounded st → expandNodes oreSources flowNodes st = Some st' →
            indexesBounded st'.
Proof.
  induction flowNodes as [|n rest IH]; intros st st' Hst; simpl.
  - by intros [= <-].
  - destruct (expandNode oreSources n st) as [st1|] eqn:E; simpl; [|done].
    intros Hrun. eapply IH; [|exact Hrun]. eapply expandNode_bounded; eauto.
Qed.

Lemma emptyExpansion_bounded : indexesBounded emptyExpansion.
Proof. intros k l i. simpl. by rewrite lookup_empty. Qed.

(** *** What one split node holds *)

Lemma sourceEntry_outputAmount n key demand share count q index :
  outputAmount (node (sourceEntry n key demand share count q index)) = ORE_QUALITY_RATES q.
Proof. reflexivity. Qed.

Lemma sourceEntry_yielding n key demand share count q index :
  (0 < ORE_QUALITY_RATES q)%Q →
  (buildingCount (node (sourceEntry n key demand share count q index))
     == demand * share / ORE_QUALITY_RATES q)%Q ∧
  (servedDemand (sourceEntry n key demand share count q index) == demand * share)%Q.
Proof.
  intros Hq. unfold servedDemand, totalDemand, sourceEntry, splitCount. simpl.
  assert (Num.gt0 (ORE_QUALITY_RATES q) = true) as -> by by apply gt0_spec.
  split; [reflexivity|]. field.
  intros H. rewrite H in Hq. by apply Qlt_irrefl in Hq.
Qed.

Lemma sourceEntry_barren n key demand share count q index :
  (ORE_QUALITY_RATES q <= 0)%Q →
  buildingCount (node (sourceEntry n key demand share count q index)) = 0%Q ∧
  (totalPower (node (sourceEntry n key demand share count q index)) == 0)%Q ∧
  (servedDemand (sourceEntry n key demand share count q index) == 0)%Q.
Proof.
  intros Hq. unfold servedDemand, totalDemand, sourceEntry, splitCount. simpl.
  assert (Num.gt0 (ORE_QUALITY_RATES q) = false) as -> by by apply gt0_false.
  split; [reflexivity|]. split.
  - change (Num.ceil 0) with 0%Q. ring.
  - ring.
Qed.

Lemma sum_servedDemand n key demand share count sources :
  ∀ index,
    (Num.sum (servedDemand <$> sourceEntries n key demand share count sources index)
       == Num.of_nat (length (yieldingSources sources)) * (demand * share))%Q.
Proof.
  induction sources as [|q rest IH]; intros index.
  - simpl. unfold Num.of_nat. simpl. ring.
  - cbn [sourceEntries fmap list_fmap Num.sum foldr yieldingSources List.filter].
    fold (Num.sum (servedDemand <$> sourceEntries n key demand share count rest (S index))).
    fold (yieldingSources rest). rewrite IH.
    destruct (Num.gt0 (ORE_QUALITY_RATES q)) eqn:E.
    + apply gt0_spec in E.
      destruct (sourceEntry_yielding n key demand share count q index E) as [_ ->].
      cbn [length]. rewrite of_nat_S. ring.
    + apply gt0_false in E.
      destruct (sourceEntry_barren n key demand share count q index E) as (_ & _ & ->).
      ring.
Qed.

Lemma yieldingSources_all (sources : list OreQuality) :
  Forall (λ q, (0 < ORE_QUALITY_RATES q)%Q) sources → yieldingSources sources = sources.
Proof.
  induction 1 as [|q rest Hq _ IH]; simpl; [done|].
  apply gt0_spec in Hq. rewrite Hq. by rewrite IH.
Qed.

Lemma share_of_total (total : Q) (k : nat) :
  (0 < k)%nat → (Num.of_nat k * (total * (1 / Num.of_nat k)) == total)%Q.
Proof.
  intros Hk. field. by apply of_nat_nonzero.
Qed.

(** Before rounding (in the rational embedding): an ore excavator node is
    replaced by one node per configured source, and the demands these nodes
    serve (unit count times yield rate) add up to [total * k / N], where [k]
    counts the sources with a positive rate; when every rate is positive the
    sum is the total demand of the original node.  The [N] equal shares the
    loop divides by the rates add up to the total demand whatever the rates
    are.  The doubles of the code round each step: see [double_split_shares]. *)
Theorem demand_conservation_yielding
    (oreSources : gmap string (list OreQuality)) (n : ProductionNode) (st : Expansion) :
  buildingId n = "ore_excavator" →
  ∃ st' origins,
    expandNode oreSources n st = Some st' ∧
    expandedNodes st' = expandedNodes st ++ origins ∧
    length origins = length (getOreSources oreSources (outputItem n)) ∧
    (Num.sum (servedDemand <$> origins)
       == Num.of_nat (length (yieldingSources (getOreSources oreSources (outputItem n))))
          * (totalDemand n / Num.of_nat (length (getOreSources oreSources (outputItem n)))))%Q ∧
    (Forall (λ q, (0 < ORE_QUALITY_RATES q)%Q) (getOreSources oreSources (outputItem n)) →
     (Num.sum (servedDemand <$> origins) == totalDemand n)%Q) ∧
    (∃ share,
       sourceShare (getOreSources oreSources (outputItem n)) = Some share ∧
       (Num.of_nat (length origins) * (totalDemand n * share) == totalDemand n)%Q).
Proof.
  intros Hb.
  destruct (expandNode_excavator oreSources n st Hb) as (st' & Hrun & Hnodes).
  exists st', (excavatorEntries oreSources n).
  pose proof (getOreSources_nonempty oreSources (outputItem n)) as Hlen.
  split; [done|]. split; [done|]. unfold excavatorEntries.
  split; [apply length_sourceEntries|]. split; [|split].
  - rewrite sum_servedDemand. field. by apply of_nat_nonzero.
  - intros Hall. rewrite sum_servedDemand, yieldingSources_all by done.
    by apply share_of_total.
  - eexists. split; [by apply sourceShare_eq|].
    rewrite length_sourceEntries. by apply share_of_total.
Qed.

Lemma lookup_excavatorEntries oreSources n i q :
  getOreSources oreSources (outputItem n) !! i = Some q →
  excavatorEntries oreSources n !! i =
    Some (sourceEntry n (nodeKey n) (totalDemand n)
            (1 / Num.of_nat (length (getOreSources oreSources (outputItem n))))%Q
            (length (getOreSources oreSources (outputItem n))) q i).
Proof.
  intros Hq. unfold excavatorEntries. rewrite lookup_sourceEntries, Hq. reflexivity.
Qed.


(** C6: an ore excavator node alone in the flow, with two configured sources
    of rates 5 and 10 and a total demand of 100, expands into exactly two
    nodes, the first serving 50 with 10 units, the second serving 50 with 5
    units; and whatever the configuration, the output amount of every
    expanded node is the rate of its own source. *)
Theorem two_sources_split
    (oreSources : gmap string (list OreQuality)) (n : ProductionNode) :
  buildingId n = "ore_excavator" →
  ∃ st,
    expandNodes oreSources [n] emptyExpansion = Some st ∧
    length (expandedNodes st) = length (getOreSources oreSources (outputItem n)) ∧
    (∀ i q, getOreSources oreSources (outputItem n) !! i = Some q →
            ∃ e, expandedNodes st !! i = Some e ∧
                 outputAmount (node e) = ORE_QUALITY_RATES q ∧
                 sourceQuality e = Some q ∧ sourceIndex e = Some i) ∧
    (∀ q1 q2, oreSources !! outputItem n = Some [q1; q2] →
              (totalDemand n == 100)%Q →
              (ORE_QUALITY_RATES q1 == 5)%Q → (ORE_QUALITY_RATES q2 == 10)%Q →
              ∃ e1 e2, expandedNodes st = [e1; e2] ∧
                       (servedDemand e1 == 50)%Q ∧ (buildingCount (node e1) == 10)%Q ∧
                       (servedDemand e2 == 50)%Q ∧ (buildingCount (node e2) == 5)%Q ∧
                       (outputAmount (node e1) == 5)%Q ∧ (outputAmount (node e2) == 10)%Q).
Proof.
  intros Hb.
  destruct (expandNode_excavator oreSources n emptyExpansion Hb) as (st & Hrun & Hnodes).
  exists st. simpl in Hnodes. cbn [expandNodes]. rewrite Hrun. simpl.
  split; [done|]. rewrite Hnodes.
  split; [apply length_sourceEntries|]. split.
  - intros i q Hq. eexists. split; [by apply lookup_excavatorEntries|]. done.
  - intros q1 q2 Hcfg Htotal H1 H2. unfold excavatorEntries, getOreSources.
    rewrite Hcfg. simpl.
    assert (0 < ORE_QUALITY_RATES q1)%Q as Hp1 by (rewrite H1; reflexivity).
    assert (0 < ORE_QUALITY_RATES q2)%Q as Hp2 by (rewrite H2; reflexivity).
    assert (totalDemand n * (1 / Num.of_nat 2) == 50)%Q as Hshare
      by (rewrite Htotal; reflexivity).
    destruct (sourceEntry_yielding n (nodeKey n) (totalDemand n)
                (1 / Num.of_nat 2)%Q 2 q1 0 Hp1) as [Hc1 Hs1].
    destruct (sourceEntry_yielding n (nodeKey n) (totalDemand n)
                (1 / Num.of_nat 2)%Q 2 q2 1 Hp2) as [Hc2 Hs2].
    eexists _, _. split; [reflexivity|].
    rewrite Hs1, Hs2, Hc1, Hc2, Hshare, !sourceEntry_outputAmount, H1, H2.
    repeat split; reflexivity.
Qed.

(** ** Edge distribution *)

Lemma forEachTo_eq fromIdx item amt toIndexes :
  ∀ acc, forEachTo fromIdx item amt toIndexes acc =
           acc ++ ((λ t, mkExpandedEdge fromIdx t item amt) <$> toIndexes).
Proof.
  induction toIndexes as [|t rest IH]; intros acc; simpl.
  - by rewrite app_nil_r.
  - rewrite IH. by rewrite <- app_assoc.
Qed.

Lemma forEachFrom_eq item amt fromIndexes toIndexes :
  ∀ acc, forEachFrom item amt fromIndexes toIndexes acc =
           acc ++ fanOut item amt fromIndexes toIndexes.
Proof.
  unfold fanOut.
  induction fromIndexes as [|f rest IH]; intros acc; simpl.
  - by rewrite app_nil_r.
  - rewrite IH, forEachTo_eq, fmap_app, <- app_assoc. do 2 f_equal.
    rewrite <- list_fmap_compose. reflexivity.
Qed.

Lemma length_fanOut item amt fromIndexes toIndexes :
  length (fanOut item amt fromIndexes toIndexes)
    = (length fromIndexes * length toIndexes)%nat.
Proof. unfold fanOut. by rewrite length_fmap, length_prod. Qed.

Lemma fanOut_pairs item amt fromIndexes toIndexes :
  (λ x, (fromIndex x, toIndex x)) <$> fanOut item amt fromIndexes toIndexes
    = list_prod fromIndexes toIndexes.
Proof.
  unfold fanOut. rewrite <- list_fmap_compose.
  rewrite <- (list_fmap_id (list_prod fromIndexes toIndexes)) at 2.
  apply list_fmap_ext. by intros ? [??].
Qed.

Lemma fanOut_payload item amt fromIndexes toIndexes :
  Forall (λ x, itemId x = item ∧ amount x = amt) (fanOut item amt fromIndexes toIndexes).
Proof. unfold fanOut. apply Forall_fmap, Forall_true. by intros [??]. Qed.

Lemma fanOut_indexes item amt fromIndexes toIndexes x :
  x ∈ fanOut item amt fromIndexes toIndexes →
  fromIndex x ∈ fromIndexes ∧ toIndex x ∈ toIndexes.
Proof.
  unfold fanOut. intros ([f t] & -> & Hin)%list_elem_of_fmap. simpl.
  apply list_elem_of_In, in_prod_iff in Hin.
  by rewrite !list_elem_of_In.
Qed.

Lemma distributeEdge_dropped (m : gmap string (list nat)) e acc :
  default [] (m !! edge_from e) = [] ∨ default [] (m !! edge_to e) = [] →
  distributeEdge m e acc = Some acc.
Proof.
  intros H. unfold distributeEdge. rewrite decide_True; [done|].
  destruct H as [-> | ->]; auto.
Qed.

Lemma distributeEdge_fan (m : gmap string (list nat)) e acc :
  default [] (m !! edge_from e) ≠ [] → default [] (m !! edge_to e) ≠ [] →
  distributeEdge m e acc =
    Some (acc ++ fanOut (edge_itemId e)
                   (edge_amount e * (1 / Num.of_nat (length (default [] (m !! edge_from e)))))%Q
                   (default [] (m !! edge_from e)) (default [] (m !! edge_to e))).
Proof.
  intros Hf Ht. unfold distributeEdge.
  rewrite decide_False.
  - rewrite div_nonzero.
    + simpl. by rewrite forEachFrom_eq.
    + apply of_nat_nonzero. destruct (default [] (m !! edge_from e)); simpl; [done|lia].
  - intros [H|H]; apply length_zero_iff_nil in H; contradiction.
Qed.

Lemma distributeEdge_extends (m : gmap string (list nat)) e acc :
  ∃ emitted,
    distributeEdge m e acc = Some (acc ++ emitted) ∧
    ∀ x, x ∈ emitted →
         fromIndex x ∈ default [] (m !! edge_from e) ∧
         toIndex x ∈ default [] (m !! edge_to e).
Proof.
  destruct (decide (default [] (m !! edge_from e) = [])) as [Hf|Hf];
    [|destruct (decide (default [] (m !! edge_to e) = [])) as [Ht|Ht]].
  - exists []. rewrite distributeEdge_dropped by auto. rewrite app_nil_r.
    split; [done|]. intros x Hx. by apply not_elem_of_nil in Hx.
  - exists []. rewrite distributeEdge_dropped by auto. rewrite app_nil_r.
    split; [done|]. intros x Hx. by apply not_elem_of_nil in Hx.
  - eexists. rewrite distributeEdge_fan by done. split; [done|].
    intros x Hx. by apply fanOut_indexes in Hx.
Qed.

Lemma distributeEdges_total (m : gmap string (list nat)) flowEdges :
  ∀ acc, is_Some (distributeEdges m flowEdges acc).
Proof.
  induction flowEdges as [|e rest IH]; intros acc; simpl; [eauto|].
  destruct (distributeEdge_extends m e acc) as (emitted & -> & _). simpl. apply IH.
Qed.

Lemma distributeEdges_indexes (m : gmap string (list nat)) flowEdges :
  ∀ acc es x,
    distributeEdges m flowEdges acc = Some es → x ∈ es →
    x ∈ acc ∨ ∃ e, e ∈ flowEdges ∧
                   fromIndex x ∈ default [] (m !! edge_from e) ∧
                   toIndex x ∈ default [] (m !! edge_to e).
Proof.
  induction flowEdges as [|e rest IH]; intros acc es x; simpl.
  - intros [= <-]. auto.
  - destruct (distributeEdge_extends m e acc) as (emitted & -> & Hem). simpl.
    intros Hrun Hx. destruct (IH _ _ _ Hrun Hx) as [Hacc|(e' & He' & H)].
    + apply elem_of_app in Hacc as [Hacc|Hnew]; [auto|].
      right. exists e. split; [apply list_elem_of_here|]. by apply Hem.
    + right. exists e'. split; [by apply list_elem_of_further|done].
Qed.

Lemma distributeEdges_skip (m : gmap string (list nat)) e before after :
  (∀ acc, distributeEdge m e acc = Some acc) →
  ∀ acc, distributeEdges m (before ++ e :: after) acc
         = distributeEdges m (before ++ after) acc.
Proof.
  intros Hdrop. induction before as [|b rest IH]; intros acc; simpl.
  - by rewrite Hdrop.
  - destruct (distributeEdge m b acc) as [acc'|]; simpl; [apply IH|done].
Qed.

Lemma sum_amount_fanOut item amt fromIndexes toIndexes :
  (Num.sum (amount <$> fanOut item amt fromIndexes toIndexes)
     == Num.of_nat (length fromIndexes) * Num.of_nat (length toIndexes) * amt)%Q.
Proof.
  rewrite sum_const with (c := amt).
  - rewrite length_fmap, length_fanOut, of_nat_mul. reflexivity.
  - apply Forall_fmap. eapply Forall_impl; [apply fanOut_payload|].
    intros x [_ Hx]. simpl. rewrite Hx. reflexivity.
Qed.

Lemma sum_amount_from item amt (f : nat) fromIndexes toIndexes :
  NoDup fromIndexes → f ∈ fromIndexes →
  (Num.sum (amount <$> filter (λ x, fromIndex x = f)
                          (fanOut item amt fromIndexes toIndexes))
     == Num.of_nat (length toIndexes) * amt)%Q.
Proof.
  assert (∀ g, filter (λ x, fromIndex x = f)
                 ((λ ft : nat * nat, mkExpandedEdge ft.1 ft.2 item amt)
                    <$> ((λ t, (g, t)) <$> toIndexes))
               = if decide (g = f)
                 then (λ t, mkExpandedEdge g t item amt) <$> toIndexes else []) as Hrow.
  { intros g. induction toIndexes as [|t rest IH].
    - simpl. by destruct (decide (g = f)).
    - rewrite !fmap_cons, filter_cons, IH. cbn [fromIndex fst].
      by destruct (decide (g = f)). }
  assert (∀ g, (Num.sum (amount <$> ((λ t, mkExpandedEdge g t item amt) <$> toIndexes))
                  == Num.of_nat (length toIndexes) * amt)%Q) as Hsum.
  { intros g. rewrite sum_const with (c := amt).
    - by rewrite !length_fmap.
    - apply Forall_fmap, Forall_fmap, Forall_true. intros t. simpl. reflexivity. }
  assert (∀ l, f ∉ l →
               filter (λ x, fromIndex x = f) (fanOut item amt l toIndexes) = []) as Hnone.
  { intros l Hl. apply elem_of_nil_inv. intros x [Hx Hin]%list_elem_of_filter.
    apply fanOut_indexes in Hin as [Hin _]. by rewrite Hx in Hin. }
  unfold fanOut in *.
  induction 1 as [|g rest Hg Hnd IH]; intros Hin.
  - by apply not_elem_of_nil in Hin.
  - cbn [list_prod]. change (List.map ?h ?l) with (h <$> l).
    rewrite fmap_app, filter_app, fmap_app, sum_app, Hrow.
    destruct (decide (g = f)) as [->|Hne].
    + rewrite Hnone by done. rewrite Hsum. simpl. ring.
    + apply elem_of_cons in Hin as [->|Hin]; [done|].
      rewrite IH by done. simpl. ring.
Qed.

Lemma sum_amount_to item amt (t : nat) fromIndexes toIndexes :
  NoDup toIndexes → t ∈ toIndexes →
  (Num.sum (amount <$> filter (λ x, toIndex x = t)
                          (fanOut item amt fromIndexes toIndexes))
     == Num.of_nat (length fromIndexes) * amt)%Q.
Proof.
  intros Hnd Hin.
  assert (∀ g, filter (λ x, toIndex x = t)
                 ((λ ft : nat * nat, mkExpandedEdge ft.1 ft.2 item amt)
                    <$> ((λ t', (g, t')) <$> toIndexes))
               = [mkExpandedEdge g t item amt]) as Hrow.
  { intros g. clear fromIndexes.
    induction Hnd as [|t' rest Ht' Hnd IH]; [by apply not_elem_of_nil in Hin|].
    rewrite !fmap_cons, filter_cons. cbn [toIndex fst snd].
    destruct (decide (t' = t)) as [->|Hne].
    - f_equal. apply elem_of_nil_inv. intros x [Hx Hm]%list_elem_of_filter.
      apply list_elem_of_fmap in Hm as ([g' t''] & -> & Hm).
      apply list_elem_of_fmap in Hm as (t3 & [= -> ->] & Hm). simpl in Hx.
      by rewrite Hx in Hm.
    - apply elem_of_cons in Hin as [->|Hin]; [done|]. by apply IH. }
  unfold fanOut. induction fromIndexes as [|g rest IH].
  - simpl. unfold Num.of_nat. simpl. ring.
  - cbn [list_prod]. change (List.map ?h ?l) with (h <$> l).
    rewrite fmap_app, filter_app, fmap_app, sum_app, Hrow, IH.
    cbn [length]. rewrite of_nat_S. simpl. ring.
Qed.

(** Before rounding (in the rational embedding): the amounts of the edges
    emitted for a base edge of amount [A] add up to [T * A], where [T] is the
    number of expansions of its destination; the sum is [A] when the
    destination is not split.  The edges leaving one expansion of the source
    carry [T * A / F] together, and the edges entering one expansion of the
    destination carry [A] together.  The doubles of the code round each
    product: see [double_edge_amounts]. *)
Theorem edge_amounts_sum
    (m : gmap string (list nat)) (e : ProductionEdge) (acc : list ExpandedEdge)
    (fromIndexes toIndexes : list nat) :
  m !! edge_from e = Some fromIndexes → m !! edge_to e = Some toIndexes →
  (1 ≤ length fromIndexes)%nat → (1 ≤ length toIndexes)%nat →
  ∃ emitted,
    distributeEdge m e acc = Some (acc ++ emitted) ∧
    (Num.sum (amount <$> emitted) == Num.of_nat (length toIndexes) * edge_amount e)%Q ∧
    (length toIndexes = 1%nat → (Num.sum (amount <$> emitted) == edge_amount e)%Q) ∧
    (NoDup fromIndexes → ∀ f, f ∈ fromIndexes →
       (Num.sum (amount <$> filter (λ x, fromIndex x = f) emitted)
          == Num.of_nat (length toIndexes) * edge_amount e
             / Num.of_nat (length fromIndexes))%Q) ∧
    (NoDup toIndexes → ∀ t, t ∈ toIndexes →
       (Num.sum (amount <$> filter (λ x, toIndex x = t) emitted) == edge_amount e)%Q).
Proof.
  intros Hf Ht HF HT.
  assert (default [] (m !! edge_from e) = fromIndexes) as Ef by by rewrite Hf.
  assert (default [] (m !! edge_to e) = toIndexes) as Et by by rewrite Ht.
  assert (¬ (Num.of_nat (length fromIndexes) == 0)%Q) as Hnz
    by (apply of_nat_nonzero; lia).
  eexists. rewrite distributeEdge_fan.
  2: { rewrite Ef. intros ->. simpl in HF. lia. }
  2: { rewrite Et. intros ->. simpl in HT. lia. }
  rewrite Ef, Et. split; [done|].
  assert (Num.sum (amount <$> fanOut (edge_itemId e)
                     (edge_amount e * (1 / Num.of_nat (length fromIndexes)))
                     fromIndexes toIndexes)
          == Num.of_nat (length toIndexes) * edge_amount e)%Q as Hsum.
  { rewrite sum_amount_fanOut. by field. }
  split; [done|]. split; [|split].
  - intros H1. rewrite Hsum, H1. unfold Num.of_nat. simpl. ring.
  - intros Hnd f Hin. rewrite sum_amount_from by done. by field.
  - intros Hnd t Hin. rewrite sum_amount_to by done. by field.
Qed.

(** Before rounding (in the rational embedding): a base edge whose keys
    resolve to [F >= 1] and [T >= 1] indexes is replaced by [F * T] edges, one
    per pair of the cartesian product of the two index lists, each with the
    item of the base edge and the amount [A * (1 / F)], which is [A / F] over
    the rationals.  In the doubles of the code the product with the rounded
    reciprocal is not always the quotient: see [double_edge_fan_out]. *)
Theorem edge_fan_out
    (m : gmap string (list nat)) (e : ProductionEdge) (acc : list ExpandedEdge)
    (fromIndexes toIndexes : list nat) :
  m !! edge_from e = Some fromIndexes → m !! edge_to e = Some toIndexes →
  (1 ≤ length fromIndexes)%nat → (1 ≤ length toIndexes)%nat →
  ∃ emitted,
    distributeEdge m e acc = Some (acc ++ emitted) ∧
    length emitted = (length fromIndexes * length toIndexes)%nat ∧
    (λ x, (fromIndex x, toIndex x)) <$> emitted = list_prod fromIndexes toIndexes ∧
    Forall (λ x, itemId x = edge_itemId e ∧
                 amount x = (edge_amount e * (1 / Num.of_nat (length fromIndexes)))%Q ∧
                 (amount x == edge_amount e / Num.of_nat (length fromIndexes))%Q)
      emitted ∧
    (∀ t, (edge_amount e == 9)%Q → length fromIndexes = 3%nat → toIndexes = [t] →
          length emitted = 3%nat ∧
          Forall (λ x, (amount x == 3)%Q ∧ toIndex x = t) emitted).
Proof.
  intros Hf Ht HF HT.
  assert (default [] (m !! edge_from e) = fromIndexes) as Ef by by rewrite Hf.
  assert (default [] (m !! edge_to e) = toIndexes) as Et by by rewrite Ht.
  assert (¬ (Num.of_nat (length fromIndexes) == 0)%Q) as Hnz
    by (apply of_nat_nonzero; lia).
  eexists. rewrite distributeEdge_fan.
  2: { rewrite Ef. intros ->. simpl in HF. lia. }
  2: { rewrite Et. intros ->. simpl in HT. lia. }
  rewrite Ef, Et. split; [done|].
  split; [apply length_fanOut|]. split; [apply fanOut_pairs|]. split.
  - eapply Forall_impl; [apply fanOut_payload|].
    intros x [-> ->]. split; [done|]. split; [done|]. by field.
  - intros t H9 H3 ->. split; [rewrite length_fanOut, H3; done|].
    apply Forall_forall. intros x Hx.
    pose proof (fanOut_indexes _ _ _ _ _ Hx) as [_ Hto].
    apply list_elem_of_singleton in Hto.
    pose proof (proj1 (Forall_forall _ _) (fanOut_payload _ _ _ _) x Hx) as [_ Ha].
    cbv beta. split; [|done]. rewrite Ha, H9, H3. reflexivity.
Qed.

(** C7: a base edge one of whose keys has no expanded index is dropped: it
    adds no expanded edge, the distribution still has a result, and the
    edges emitted for the other base edges are the same as without it. *)
Theorem dangling_edge_dropped (m : gmap string (list nat)) (e : ProductionEdge) :
  (m !! edge_from e = None ∨ m !! edge_from e = Some []) ∨
  (m !! edge_to e = None ∨ m !! edge_to e = Some []) →
  (∀ acc, distributeEdge m e acc = Some acc) ∧
  (∀ before after acc,
     is_Some (distributeEdges m (before ++ e :: after) acc) ∧
     distributeEdges m (before ++ e :: after) acc
       = distributeEdges m (before ++ after) acc).
Proof.
  intros H.
  assert (∀ acc, distributeEdge m e acc = Some acc) as Hdrop.
  { intros acc. apply distributeEdge_dropped.
    destruct H as [[-> | ->] | [-> | ->]]; auto. }
  split; [done|]. intros before after acc.
  split; [apply distributeEdges_total|]. by apply distributeEdges_skip.
Qed.

(** ** Assembly *)

Lemma pretty_N_go_dashFree (x : N) :
  ∀ s, dashFree s = true → dashFree (pretty_N_go x s) = true.
Proof.
  induction (N.lt_wf_0 x) as [x _ IH]; intros s Hs.
  assert (x = 0 ∨ 0 < x)%N as [->|Hx] by lia.
  - by rewrite pretty_N_go_0.
  - rewrite pretty_N_go_step by done. apply IH.
    + by apply N.div_lt.
    + simpl. rewrite Hs. unfold pretty_N_char. by repeat case_match.
Qed.

Lemma pretty_nat_dashFree (k : nat) : dashFree (pretty k) = true.
Proof.
  unfold pretty, pretty_nat, pretty, pretty_N.
  destruct (decide (N.of_nat k = 0%N)); [done|]. by apply pretty_N_go_dashFree.
Qed.

Lemma append_nil (b : string) : "" +:+ b = b.
Proof. reflexivity. Qed.

Lemma append_cons (x : ascii) (a b : string) : String x a +:+ b = String x (a +:+ b).
Proof. reflexivity. Qed.

Lemma string_app_assoc (a b c : string) : (a +:+ b) +:+ c = a +:+ (b +:+ c).
Proof.
  induction a as [|x a IH]; [done|]. rewrite !append_cons. by f_equal.
Qed.

Lemma split_at_dash (a b r r' : string) :
  dashFree a = true → dashFree b = true →
  a +:+ String "-"%char r = b +:+ String "-"%char r' → a = b ∧ r = r'.
Proof.
  revert b. induction a as [|x a IH]; intros [|y b];
    rewrite ?append_cons, ?append_nil; simpl.
  - intros _ _ [= ->]. done.
  - intros _ Hb [= <- _]. done.
  - intros Ha _ [= -> _]. done.
  - intros [_ Ha]%andb_prop [_ Hb]%andb_prop [= -> Heq].
    destruct (IH b Ha Hb Heq) as [-> ->]. done.
Qed.

Lemma edgeId_inj (e1 e2 : ExpandedEdge) :
  edgeId e1 = edgeId e2 ↔
  fromIndex e1 = fromIndex e2 ∧ toIndex e1 = toIndex e2 ∧ itemId e1 = itemId e2.
Proof.
  split.
  - unfold edgeId, nodeId. rewrite !string_app_assoc.
    rewrite !append_cons, !append_nil. intros [= H].
    apply split_at_dash in H as [Hf H]; [|apply pretty_nat_dashFree..].
    injection H as H.
    apply split_at_dash in H as [Ht H]; [|apply pretty_nat_dashFree..].
    apply (inj pretty) in Hf. apply (inj pretty) in Ht. done.
  - unfold edgeId. by intros (-> & -> & ->).
Qed.

Lemma reactFlowEdge_id (e : ExpandedEdge) : id (reactFlowEdge e) = edgeId e.
Proof. reflexivity. Qed.

Lemma forEachExpandedEdge_spec (es : list ExpandedEdge) :
  ∀ (seen : gset string) (acc : list FlowEdge),
    (∀ i, i ∈ seen ↔ i ∈ id <$> acc) → NoDup (id <$> acc) →
    NoDup (id <$> forEachExpandedEdge es seen acc) ∧
    (∀ o, o ∈ acc → o ∈ forEachExpandedEdge es seen acc) ∧
    (∀ e, e ∈ es → edgeId e ∈ id <$> forEachExpandedEdge es seen acc) ∧
    (∀ o, o ∈ forEachExpandedEdge es seen acc →
          o ∈ acc ∨
          ∃ before e after,
            es = before ++ e :: after ∧
            (∀ x, x ∈ before → edgeId x ≠ edgeId e) ∧
            (edgeId e ∉ seen) ∧ o = reactFlowEdge e).
Proof.
  induction es as [|e rest IH]; intros seen acc Hseen Hnd.
  - simpl. split; [done|]. split; [done|]. split; [|auto].
    intros e He. by apply not_elem_of_nil in He.
  - cbn [forEachExpandedEdge]. destruct (decide (edgeId e ∈ seen)) as [Hin|Hnin].
    + destruct (IH seen acc Hseen Hnd) as (H1 & H2 & H3 & H4).
      split; [done|]. split; [done|]. split.
      * intros x [->|Hx]%elem_of_cons; [|by apply H3].
        apply Hseen, list_elem_of_fmap in Hin as (o & Ho & Hin).
        apply list_elem_of_fmap. exists o. split; [done|]. by apply H2.
      * intros o Ho. destruct (H4 o Ho) as [?|(before & x & after & -> & Hb & Hx & ->)];
          [by left|right].
        exists (e :: before), x, after. split; [done|]. split; [|done].
        intros y [->|Hy]%elem_of_cons; [|by apply Hb]. congruence.
    + assert (∀ i, i ∈ {[edgeId e]} ∪ seen ↔ i ∈ id <$> acc ++ [reactFlowEdge e]) as Hseen'.
      { intros i. rewrite fmap_app, elem_of_app, elem_of_union, elem_of_singleton.
        simpl. rewrite list_elem_of_singleton, Hseen. tauto. }
      assert (NoDup (id <$> acc ++ [reactFlowEdge e])) as Hnd'.
      { rewrite fmap_app. apply NoDup_app. split; [done|]. split.
        - intros i Hi ->%list_elem_of_singleton. by apply Hnin, Hseen.
        - apply NoDup_singleton. }
      destruct (IH _ _ Hseen' Hnd') as (H1 & H2 & H3 & H4).
      split; [done|]. split; [|split].
      * intros o Ho. apply H2, elem_of_app. by left.
      * intros x [->|Hx]%elem_of_cons; [|by apply H3].
        apply list_elem_of_fmap. exists (reactFlowEdge e). split; [done|].
        apply H2, elem_of_app. right. by apply list_elem_of_singleton.
      * intros o Ho.
        destruct (H4 o Ho) as [[?| ->%list_elem_of_singleton]%elem_of_app
                              |(before & x & after & -> & Hb & Hx & ->)].
        -- by left.
        -- right. exists [], e, rest. split; [done|]. split; [|done].
           intros y Hy. by apply not_elem_of_nil in Hy.
        -- right. exists (e :: before), x, after. split; [done|]. split.
           ++ intros y [->|Hy]%elem_of_cons; [|by apply Hb].
              intros Heq. apply Hx, elem_of_union. left.
              by apply elem_of_singleton.
           ++ split; [|done]. intros Hin. apply Hx, elem_of_union. by right.
Qed.

Lemma edge_ids_kept (es : list ExpandedEdge) (o : FlowEdge) :
  o ∈ reactFlowEdges es → ∃ e, e ∈ es ∧ o = reactFlowEdge e.
Proof.
  intros Ho.
  destruct (forEachExpandedEdge_spec es ∅ []) as (_ & _ & _ & H4).
  { intros i. simpl. rewrite elem_of_empty. split; [done|].
    intros H. by apply not_elem_of_nil in H. }
  { simpl. apply NoDup_nil_2. }
  destruct (H4 o Ho) as [Hnil|(before & e & after & -> & _ & _ & ->)].
  - by apply not_elem_of_nil in Hnil.
  - exists e. split; [|done]. apply elem_of_app. right. apply list_elem_of_here.
Qed.

(** C4: the ids of the edges of the flow graph are pairwise different, an id
    stands for one triple of source node, target node and item, every
    expanded edge has its id among them, and the edge kept under an id is the
    first expanded edge with that id (later ones are discarded), so the
    flow graph has as many edges as the expanded edges have different ids. *)
Theorem edge_ids_unique (es : list ExpandedEdge) :
  NoDup (id <$> reactFlowEdges es) ∧
  (∀ e1 e2, edgeId e1 = edgeId e2 ↔
            fromIndex e1 = fromIndex e2 ∧ toIndex e1 = toIndex e2 ∧
            itemId e1 = itemId e2) ∧
  (∀ e, e ∈ es → edgeId e ∈ id <$> reactFlowEdges es) ∧
  (∀ o, o ∈ reactFlowEdges es →
        ∃ before e after,
          es = before ++ e :: after ∧
          (∀ x, x ∈ before → edgeId x ≠ edgeId e) ∧
          o = reactFlowEdge e) ∧
  length (reactFlowEdges es) = size (list_to_set (edgeId <$> es) : gset string).
Proof.
  destruct (forEachExpandedEdge_spec es ∅ []) as (H1 & _ & H3 & H4).
  { intros i. simpl. rewrite elem_of_empty. split; [done|].
    intros H. by apply not_elem_of_nil in H. }
  { simpl. apply NoDup_nil_2. }
  assert (∀ o, o ∈ reactFlowEdges es →
               ∃ before e after,
                 es = before ++ e :: after ∧
                 (∀ x, x ∈ before → edgeId x ≠ edgeId e) ∧
                 o = reactFlowEdge e) as Hfirst.
  { intros o Ho. destruct (H4 o Ho) as [Hnil|(before & e & after & ? & ? & _ & ?)].
    - by apply not_elem_of_nil in Hnil.
    - by exists before, e, after. }
  split; [done|]. split; [apply edgeId_inj|]. split; [done|]. split; [done|].
  rewrite <- (length_fmap id), <- (size_list_to_set (C := gset string)) by done.
  f_equal. apply set_eq. intros i. rewrite !elem_of_list_to_set. split.
  - intros (o & -> & Ho)%list_elem_of_fmap.
    destruct (Hfirst o Ho) as (before & e & after & -> & _ & ->).
    apply list_elem_of_fmap. exists e. split; [done|].
    apply elem_of_app. right. apply list_elem_of_here.
  - intros (e & -> & He)%list_elem_of_fmap. by apply H3.
Qed.

Lemma length_reactFlowNodes (entries : list ExpandedNode) :
  length (reactFlowNodes entries) = length entries.
Proof. unfold reactFlowNodes. apply length_imap. Qed.

Lemma nodeId_in_reactFlowNodes (entries : list ExpandedNode) (i : nat) :
  (i < length entries)%nat → nodeId i ∈ node_id <$> reactFlowNodes entries.
Proof.
  intros Hi. apply lookup_lt_is_Some in Hi as [entry Hentry].
  apply list_elem_of_fmap.
  exists (mkFlowNode (nodeId i) entry (totalPowerConsumption entries)).
  split; [done|]. apply list_elem_of_lookup. exists i.
  unfold reactFlowNodes. by rewrite list_lookup_imap, Hentry.
Qed.

(** ** The whole function *)

Lemma generateReactFlowData_total (p : FlowDataGenerationParams) (catalog : Catalog) :
  is_Some (generateReactFlowData p catalog).
Proof.
  unfold generateReactFlowData.
  destruct (expandNodes_total (oreSourcesByItem p)
              (flow_nodes (buildProductionFlow (productionFlowParams p) catalog))
              emptyExpansion) as [st ->].
  simpl.
  destruct (distributeEdges_total (nodeKeyToExpandedIndexes st)
              (flow_edges (buildProductionFlow (productionFlowParams p) catalog)) [])
    as [es ->].
  simpl. eauto.
Qed.

(** C9: the function always returns a flow graph; every expanded edge has a
    [fromIndex] and a [toIndex] below the number of expanded nodes, and the
    source and the target of every edge of the flow graph are ids of nodes
    of the flow graph. *)
Theorem edges_reference_nodes (p : FlowDataGenerationParams) (catalog : Catalog) :
  ∃ st expandedEdges fd,
    expandNodes (oreSourcesByItem p)
      (flow_nodes (buildProductionFlow (productionFlowParams p) catalog))
      emptyExpansion = Some st ∧
    distributeEdges (nodeKeyToExpandedIndexes st)
      (flow_edges (buildProductionFlow (productionFlowParams p) catalog)) []
      = Some expandedEdges ∧
    generateReactFlowData p catalog = Some fd ∧
    length (nodes fd) = length (expandedNodes st) ∧
    (∀ x, x ∈ expandedEdges →
          (fromIndex x < length (expandedNodes st))%nat ∧
          (toIndex x < length (expandedNodes st))%nat) ∧
    (∀ o, o ∈ edges fd →
          source o ∈ node_id <$> nodes fd ∧ target o ∈ node_id <$> nodes fd).
Proof.
  unfold generateReactFlowData.
  destruct (expandNodes_total (oreSourcesByItem p)
              (flow_nodes (buildProductionFlow (productionFlowParams p) catalog))
              emptyExpansion) as [st Hst].
  destruct (distributeEdges_total (nodeKeyToExpandedIndexes st)
              (flow_edges (buildProductionFlow (productionFlowParams p) catalog)) [])
    as [es Hes].
  rewrite Hst. simpl. rewrite Hes. simpl.
  exists st, es, (mkFlowData (reactFlowNodes (expandedNodes st)) (reactFlowEdges es)).
  split; [done|]. split; [done|]. split; [done|]. simpl.
  split; [apply length_reactFlowNodes|].
  pose proof (expandNodes_bounded _ _ _ _ emptyExpansion_bounded Hst) as Hbound.
  assert (∀ x, x ∈ es →
               (fromIndex x < length (expandedNodes st))%nat ∧
               (toIndex x < length (expandedNodes st))%nat) as Hidx.
  { intros x Hx.
    destruct (distributeEdges_indexes _ _ _ _ _ Hes Hx) as [Hnil|(e & _ & Hf & Ht)].
    { by apply not_elem_of_nil in Hnil. }
    destruct (nodeKeyToExpandedIndexes st !! edge_from e) as [fs|] eqn:Ef;
      simpl in Hf; [|by apply not_elem_of_nil in Hf].
    destruct (nodeKeyToExpandedIndexes st !! edge_to e) as [ts|] eqn:Et;
      simpl in Ht; [|by apply not_elem_of_nil in Ht].
    unfold indexesBounded in Hbound. split; [by eapply (Hbound _ fs)|by eapply (Hbound _ ts)]. }
  split; [done|]. intros o Ho.
  destruct (edge_ids_kept es o Ho) as (x & Hx & ->). simpl.
  destruct (Hidx x Hx). split; by apply nodeId_in_reactFlowNodes.
Qed.

(** C8: a target amount that is zero or negative is replaced by 1 before
    [buildProductionFlow] is called, so the result is the result for the
    target amount 1; a positive target amount is passed unchanged. *)
Theorem target_amount_fallback
    (item : string) (t : Q) (oreSources : gmap string (list OreQuality))
    (catalog : Catalog) :
  ((t <= 0)%Q →
   validAmount t = 1%Q ∧
   pf_targetAmount (productionFlowParams (mkFlowDataGenerationParams item t oreSources))
     = 1%Q ∧
   generateReactFlowData (mkFlowDataGenerationParams item t oreSources) catalog
     = generateReactFlowData (mkFlowDataGenerationParams item 1 oreSources) catalog ∧
   is_Some (generateReactFlowData (mkFlowDataGenerationParams item t oreSources) catalog)) ∧
  ((0 < t)%Q →
   validAmount t = t ∧
   pf_targetAmount (productionFlowParams (mkFlowDataGenerationParams item t oreSources))
     = t).
Proof.
  split.
  - intros Ht. apply gt0_false in Ht.
    assert (validAmount t = 1%Q) as Hv by (unfold validAmount; by rewrite Ht).
    split; [done|]. split; [done|]. split; [|apply generateReactFlowData_total].
    unfold generateReactFlowData, productionFlowParams. simpl. by rewrite Hv.
  - intros Ht. apply gt0_spec in Ht.
    assert (validAmount t = t) as Hv by (unfold validAmount; by rewrite Ht).
    done.
Qed.

(** C10 (as amended): for an item that has a configured list, the quality
    passed to [buildProductionFlow] is the first entry of the list, or
    'normal' when the list is empty; an item without a configured list has
    no entry in the mapping that is passed.  The entries after the first
    never reach [buildProductionFlow]: two configurations whose lists have
    the same first entries give the same base graph. *)
Theorem base_graph_uses_first_source
    (item : string) (t : Q) (oreSources : gmap string (list OreQuality))
    (catalog : Catalog) :
  (∀ i, pf_oreQualityByItem
          (productionFlowParams (mkFlowDataGenerationParams item t oreSources)) !! i
        = (λ sources : list OreQuality, default "normal" (sources !! 0%nat))
            <$> (oreSources !! i)) ∧
  (∀ oreSources' : gmap string (list OreQuality),
     (∀ i, (λ sources : list OreQuality, sources !! 0%nat) <$> (oreSources !! i)
           = (λ sources : list OreQuality, sources !! 0%nat) <$> (oreSources' !! i)) →
     buildProductionFlow
       (productionFlowParams (mkFlowDataGenerationParams item t oreSources)) catalog
     = buildProductionFlow
         (productionFlowParams (mkFlowDataGenerationParams item t oreSources')) catalog) ∧
  (∀ i q rest rest',
     buildProductionFlow
       (productionFlowParams
          (mkFlowDataGenerationParams item t (<[i := q :: rest]> oreSources))) catalog
     = buildProductionFlow
         (productionFlowParams
            (mkFlowDataGenerationParams item t (<[i := q :: rest']> oreSources))) catalog).
Proof.
  assert (∀ s1 s2 : gmap string (list OreQuality),
            (∀ i, (λ sources : list OreQuality, sources !! 0%nat) <$> (s1 !! i)
                  = (λ sources : list OreQuality, sources !! 0%nat) <$> (s2 !! i)) →
            oreQualityByItem s1 = oreQualityByItem s2) as Hsame.
  { intros s1 s2 H. apply map_eq. intros i. unfold oreQualityByItem.
    rewrite !lookup_fmap. specialize (H i).
    destruct (s1 !! i) as [l1|], (s2 !! i) as [l2|];
      cbn [fmap option_fmap option_map] in *; congruence. }
  split; [|split].
  - intros i. unfold productionFlowParams, oreQualityByItem. simpl.
    apply lookup_fmap.
  - intros oreSources' H. unfold productionFlowParams. simpl.
    by rewrite (Hsame _ _ H).
  - intros i q rest rest'. unfold productionFlowParams. simpl.
    rewrite (Hsame (<[i := q :: rest]> oreSources) (<[i := q :: rest']> oreSources));
      [done|].
    intros j. destruct (decide (i = j)) as [->|Hne].
    + by rewrite !lookup_insert_eq.
    + by rewrite !lookup_insert_ne.
Qed.

(** * Further properties of the expansion *)

Lemma forEachSource_map n key demand share count rest :
  ∀ quality index st, ∃ st',
    forEachSource n key demand share count (quality :: rest) index st = Some st' ∧
    nodeKeyToExpandedIndexes st' =
      <[key := default [] (nodeKeyToExpandedIndexes st !! key)
                 ++ seq (length (expandedNodes st)) (S (length rest))]>
        (nodeKeyToExpandedIndexes st).
Proof.
  induction rest as [|q' rest IH]; intros quality index st.
  - cbn [forEachSource]. rewrite pushSource_eq. simpl. eauto.
  - change (forEachSource n key demand share count (quality :: q' :: rest) index st)
      with (pushSource n key demand share count quality index st
              ≫= forEachSource n key demand share count (q' :: rest) (S index)).
    rewrite pushSource_eq. cbn [mbind option_bind].
    destruct (IH q' (S index)
                (mkExpansion
                   (expandedNodes st ++ [sourceEntry n key demand share count quality index])
                   (<[key := default [] (nodeKeyToExpandedIndexes st !! key)
                               ++ [length (expandedNodes st)]]>
                      (nodeKeyToExpandedIndexes st)))) as (st' & Hrun & Hmap).
    exists st'. split; [done|]. rewrite Hmap. cbn [expandedNodes nodeKeyToExpandedIndexes].
    rewrite lookup_insert_eq, insert_insert_eq, length_app. cbn [default length].
    change (Datatypes.id ?x) with x.
    rewrite <- app_assoc. do 2 f_equal. cbn [app seq].
    by rewrite Nat.add_1_r.
Qed.

Lemma length_entriesOf oreSources n :
  length (entriesOf oreSources n) = originCount oreSources n.
Proof.
  unfold entriesOf, originCount, excavatorEntries.
  destruct (decide (buildingId n = "ore_excavator")); [|done].
  apply length_sourceEntries.
Qed.

Lemma originCount_pos oreSources n : (0 < originCount oreSources n)%nat.
Proof.
  unfold originCount. destruct (decide (buildingId n = "ore_excavator")); [|lia].
  apply getOreSources_nonempty.
Qed.

Lemma expandNode_closed oreSources n st :
  expandNode oreSources n st =
    Some (mkExpansion
            (expandedNodes st ++ entriesOf oreSources n)
            (<[nodeKey n :=
                 (if decide (buildingId n = "ore_excavator")
                  then default [] (nodeKeyToExpandedIndexes st !! nodeKey n) else [])
                 ++ seq (length (expandedNodes st)) (originCount oreSources n)]>
               (nodeKeyToExpandedIndexes st))).
Proof.
  unfold entriesOf, originCount.
  destruct (decide (buildingId n = "ore_excavator")) as [Hb|Hb].
  - destruct (expandNode_excavator oreSources n st Hb) as (st' & Hrun & Hnodes).
    rewrite Hrun. f_equal. destruct st' as [nodes' map']. simpl in Hnodes. subst nodes'.
    f_equal. revert Hrun. unfold expandNode. rewrite decide_True by done.
    rewrite sourceShare_eq by apply getOreSources_nonempty. cbn [mbind option_bind].
    pose proof (getOreSources_nonempty oreSources (outputItem n)) as Hlen.
    destruct (getOreSources oreSources (outputItem n)) as [|q rest] eqn:E;
      [simpl in Hlen; lia|].
    destruct (forEachSource_map n (nodeKey n) (totalDemand n)
                (1 / Num.of_nat (length (q :: rest)))%Q (length (q :: rest)) rest q 0%nat st)
      as (st2 & Hrun2 & Hmap2).
    rewrite Hrun2. intros [= ->]. exact Hmap2.
  - by rewrite expandNode_other.
Qed.

Lemma expandNodes_closed oreSources flowNodes :
  ∀ st, ∃ st',
    expandNodes oreSources flowNodes st = Some st' ∧
    expandedNodes st' = expandedNodes st ++ mjoin (entriesOf oreSources <$> flowNodes).
Proof.
  induction flowNodes as [|n rest IH]; intros st.
  - exists st. simpl. by rewrite app_nil_r.
  - cbn [expandNodes]. rewrite expandNode_closed. cbn [mbind option_bind].
    destruct (IH (mkExpansion
                    (expandedNodes st ++ entriesOf oreSources n)
                    (<[nodeKey n :=
                         (if decide (buildingId n = "ore_excavator")
                          then default [] (nodeKeyToExpandedIndexes st !! nodeKey n)
                          else [])
                         ++ seq (length (expandedNodes st)) (originCount oreSources n)]>
                       (nodeKeyToExpandedIndexes st)))) as (st' & Hrun & Hnodes).
    exists st'. split; [done|]. rewrite Hnodes. simpl. by rewrite <- app_assoc.
Qed.

Lemma expandNodes_map_other oreSources flowNodes (key : string) :
  ∀ st st',
    key ∉ nodeKey <$> flowNodes →
    expandNodes oreSources flowNodes st = Some st' →
    nodeKeyToExpandedIndexes st' !! key = nodeKeyToExpandedIndexes st !! key.
Proof.
  induction flowNodes as [|n rest IH]; intros st st' Hkey.
  - by intros [= <-].
  - cbn [expandNodes]. rewrite expandNode_closed. cbn [mbind option_bind].
    rewrite fmap_cons, not_elem_of_cons in Hkey. destruct Hkey as [Hne Hkey].
    intros Hrun. rewrite (IH _ _ Hkey Hrun). simpl. by rewrite lookup_insert_ne.
Qed.

Lemma entriesOf_originalKey oreSources n e :
  e ∈ entriesOf oreSources n → originalKey e = nodeKey n.
Proof.
  unfold entriesOf. destruct (decide (buildingId n = "ore_excavator")).
  - intros (j & Hj)%list_elem_of_lookup. unfold excavatorEntries in Hj.
    rewrite lookup_sourceEntries in Hj.
    destruct (getOreSources oreSources (outputItem n) !! j); simpl in Hj; [|done].
    by injection Hj as <-.
  - by intros ->%list_elem_of_singleton.
Qed.

Lemma expandNode_keysSound oreSources n st st' :
  keysSound st → expandNode oreSources n st = Some st' → keysSound st'.
Proof.
  intros Hst. rewrite expandNode_closed. intros [= <-]. intros k l i. simpl.
  destruct (decide (nodeKey n = k)) as [<-|Hne].
  - rewrite lookup_insert_eq. intros [= <-]. rewrite elem_of_app, elem_of_seq.
    intros [Hold|[Hlo Hhi]].
    + assert (∃ old, nodeKeyToExpandedIndexes st !! nodeKey n = Some old ∧ i ∈ old)
        as (old & Hm & Hi).
      { destruct (decide (buildingId n = "ore_excavator")); [|by apply not_elem_of_nil in Hold].
        destruct (nodeKeyToExpandedIndexes st !! nodeKey n) as [old|]; simpl in Hold;
          [eauto|by apply not_elem_of_nil in Hold]. }
      destruct (Hst _ _ _ Hm Hi) as (e & He & Hk). exists e. split; [|done].
      rewrite lookup_app_l; [done|]. by apply lookup_lt_Some in He.
    + rewrite <- length_entriesOf in Hhi.
      destruct (lookup_lt_is_Some_2 (entriesOf oreSources n)
                  (i - length (expandedNodes st))) as [e He]; [lia|].
      exists e. split.
      * rewrite lookup_app_r by lia. done.
      * eapply entriesOf_originalKey, list_elem_of_lookup_2, He.
  - rewrite lookup_insert_ne by done. intros Hm Hi.
    destruct (Hst _ _ _ Hm Hi) as (e & He & Hk). exists e. split; [|done].
    rewrite lookup_app_l; [done|]. by apply lookup_lt_Some in He.
Qed.

Lemma expandNodes_keysSound oreSources flowNodes :
  ∀ st st', keysSound st → expandNodes oreSources flowNodes st = Some st' → keysSound st'.
Proof.
  induction flowNodes as [|n rest IH]; intros st st' Hst; simpl.
  - by intros [= <-].
  - destruct (expandNode oreSources n st) as [st1|] eqn:E; simpl; [|done].
    intros Hrun. eapply IH; [|exact Hrun]. eapply expandNode_keysSound; eauto.
Qed.

Lemma emptyExpansion_keysSound : keysSound emptyExpansion.
Proof. intros k l i. simpl. by rewrite lookup_empty. Qed.

Lemma join_cons {A} (l : list A) (ls : list (list A)) : mjoin (l :: ls) = l ++ mjoin ls.
Proof. reflexivity. Qed.

Lemma length_concat_entriesOf oreSources flowNodes :
  length (mjoin (entriesOf oreSources <$> flowNodes))
    = sum_list (originCount oreSources <$> flowNodes).
Proof.
  induction flowNodes as [|n rest IH]; [done|].
  rewrite !fmap_cons. rewrite join_cons; cbn [sum_list sum_list_with].
  by rewrite length_app, length_entriesOf, IH.
Qed.

Lemma expandNodes_map_present oreSources flowNodes (key : string) :
  ∀ st st',
    key ∈ nodeKey <$> flowNodes →
    expandNodes oreSources flowNodes st = Some st' →
    ∃ indexes, nodeKeyToExpandedIndexes st' !! key = Some indexes ∧ indexes ≠ [].
Proof.
  induction flowNodes as [|n rest IH]; intros st st' Hkey.
  - by apply not_elem_of_nil in Hkey.
  - cbn [expandNodes]. rewrite expandNode_closed. cbn [mbind option_bind]. intros Hrun.
    destruct (decide (key ∈ nodeKey <$> rest)) as [Hin|Hnin]; [by eapply IH|].
    rewrite fmap_cons in Hkey. apply elem_of_cons in Hkey as [->|?]; [|done].
    rewrite (expandNodes_map_other _ _ _ _ _ Hnin Hrun). simpl.
    rewrite lookup_insert_eq. eexists. split; [done|].
    pose proof (originCount_pos oreSources n) as Hpos.
    destruct (originCount oreSources n) as [|c]; [lia|].
    intros H. apply (f_equal length) in H. rewrite length_app in H. simpl in H. lia.
Qed.

Lemma expandNodes_map_unique oreSources flowNodes :
  ∀ st st' before n after,
    flowNodes = before ++ n :: after →
    NoDup (nodeKey <$> flowNodes) →
    (∀ k, k ∈ nodeKey <$> flowNodes → nodeKeyToExpandedIndexes st !! k = None) →
    expandNodes oreSources flowNodes st = Some st' →
    nodeKeyToExpandedIndexes st' !! nodeKey n =
      Some (seq (length (expandedNodes st)
                   + length (mjoin (entriesOf oreSources <$> before)))
              (originCount oreSources n)).
Proof.
  induction flowNodes as [|n0 rest IH]; intros st st' before n after Hsplit Hnd Hfresh.
  - by destruct before.
  - cbn [expandNodes]. rewrite expandNode_closed. cbn [mbind option_bind]. intros Hrun.
    rewrite fmap_cons in Hnd. apply NoDup_cons in Hnd as [Hn0 Hnd].
    assert (nodeKeyToExpandedIndexes st !! nodeKey n0 = None) as Hnone
      by (apply Hfresh; rewrite fmap_cons; apply list_elem_of_here).
    destruct before as [|b before]; simpl in Hsplit; injection Hsplit as -> ->.
    + rewrite (expandNodes_map_other _ _ _ _ _ Hn0 Hrun). simpl.
      rewrite lookup_insert_eq, Hnone, Nat.add_0_r. f_equal.
      by destruct (decide (buildingId n = "ore_excavator")).
    + erewrite (IH _ st' before n after eq_refl Hnd _ Hrun).
      cbn [expandedNodes]. rewrite fmap_cons. rewrite join_cons. rewrite !length_app.
      f_equal. f_equal. lia.
      Unshelve. intros k Hk. simpl. rewrite lookup_insert_ne.
      * apply Hfresh. rewrite fmap_cons. by apply list_elem_of_further.
      * intros <-. done.
Qed.

Lemma distributeEdge_closed (m : gmap string (list nat)) e acc :
  distributeEdge m e acc = Some (acc ++ emittedFor m e).
Proof.
  unfold emittedFor.
  destruct (decide (length (default [] (m !! edge_from e)) = 0%nat
                    ∨ length (default [] (m !! edge_to e)) = 0%nat)) as [H|H].
  - rewrite app_nil_r. apply distributeEdge_dropped.
    destruct H as [H|H]; apply length_zero_iff_nil in H; auto.
  - apply distributeEdge_fan; intros Hnil; apply H; rewrite Hnil; auto.
Qed.

Lemma distributeEdges_closed (m : gmap string (list nat)) flowEdges :
  ∀ acc, distributeEdges m flowEdges acc
         = Some (acc ++ mjoin (emittedFor m <$> flowEdges)).
Proof.
  induction flowEdges as [|e rest IH]; intros acc.
  - simpl. by rewrite app_nil_r.
  - cbn [distributeEdges]. rewrite distributeEdge_closed. cbn [mbind option_bind].
    rewrite IH. simpl. by rewrite <- app_assoc.
Qed.

Lemma emittedFor_payload (m : gmap string (list nat)) e x :
  x ∈ emittedFor m e →
  fromIndex x ∈ default [] (m !! edge_from e) ∧
  toIndex x ∈ default [] (m !! edge_to e) ∧
  itemId x = edge_itemId e ∧
  amount x = (edge_amount e
              * (1 / Num.of_nat (length (default [] (m !! edge_from e)))))%Q.
Proof.
  unfold emittedFor. case_decide as H; [by intros ?%not_elem_of_nil|].
  intros Hx. destruct (fanOut_indexes _ _ _ _ _ Hx) as [Hf Ht].
  pose proof (proj1 (Forall_forall _ _) (fanOut_payload _ _ _ _) x Hx) as [Hi Ha].
  done.
Qed.

(** X1: the expanded nodes are, in the order of the flow nodes, the entries of
    each node: one per source for an ore excavator, the node itself
    otherwise.  Their number is the sum of the numbers of origins, and a flow
    without ore excavators passes through unchanged. *)
Theorem expansion_is_concatenation
    (oreSources : gmap string (list OreQuality)) (flowNodes : list ProductionNode) :
  ∃ st,
    expandNodes oreSources flowNodes emptyExpansion = Some st ∧
    expandedNodes st = mjoin (entriesOf oreSources <$> flowNodes) ∧
    length (expandedNodes st) = sum_list (originCount oreSources <$> flowNodes) ∧
    (∀ n, n ∈ flowNodes → buildingId n ≠ "ore_excavator" →
          mkExpandedNode n (nodeKey n) None None None ∈ expandedNodes st) ∧
    (Forall (λ n, buildingId n ≠ "ore_excavator") flowNodes →
     node <$> expandedNodes st = flowNodes).
Proof.
  destruct (expandNodes_closed oreSources flowNodes emptyExpansion) as (st & Hrun & Hnodes).
  simpl in Hnodes. exists st. split; [done|]. split; [done|]. rewrite Hnodes.
  split; [apply length_concat_entriesOf|]. split.
  - intros n Hn Hb. apply list_elem_of_join.
    exists (entriesOf oreSources n). split.
    + unfold entriesOf. rewrite decide_False by done. apply list_elem_of_here.
    + apply list_elem_of_fmap. eauto.
  - clear Hrun Hnodes. induction 1 as [|n rest Hb _ IH]; [done|].
    rewrite fmap_cons. rewrite join_cons. rewrite fmap_app, IH.
    unfold entriesOf. by rewrite decide_False.
Qed.

(** X2: when the keys of the flow nodes are pairwise different, the key of a
    node maps to the indexes of its own entries: consecutive, in origin
    order, starting after the entries of the nodes before it. *)
Theorem key_map_lists_origin_order
    (oreSources : gmap string (list OreQuality))
    (before : list ProductionNode) (n : ProductionNode) (after : list ProductionNode)
    (st : Expansion) :
  NoDup (nodeKey <$> before ++ n :: after) →
  expandNodes oreSources (before ++ n :: after) emptyExpansion = Some st →
  nodeKeyToExpandedIndexes st !! nodeKey n =
    Some (seq (length (mjoin (entriesOf oreSources <$> before)))
            (originCount oreSources n)) ∧
  ∀ j, (j < originCount oreSources n)%nat →
       expandedNodes st !! (length (mjoin (entriesOf oreSources <$> before)) + j)%nat
         = entriesOf oreSources n !! j.
Proof.
  intros Hnd Hrun. split.
  - erewrite (expandNodes_map_unique oreSources _ emptyExpansion st before n after
                eq_refl Hnd _ Hrun). done.
    Unshelve. intros k _. apply lookup_empty.
  - intros j Hj.
    destruct (expandNodes_closed oreSources (before ++ n :: after) emptyExpansion)
      as (st2 & Hrun2 & Hnodes).
    rewrite Hrun in Hrun2. injection Hrun2 as <-. rewrite Hnodes. simpl.
    rewrite fmap_app, join_app, fmap_cons. rewrite join_cons.
    rewrite lookup_app_r by lia. rewrite lookup_app_l.
    + f_equal. lia.
    + rewrite length_entriesOf. lia.
Qed.

(** X3: after the expansion of a flow, a base edge adds no expanded edge
    exactly when its [from] key or its [to] key is not the key of a flow
    node; otherwise it adds at least one. *)
Theorem edge_kept_iff_endpoints_known
    (oreSources : gmap string (list OreQuality)) (flowNodes : list ProductionNode)
    (st : Expansion) (e : ProductionEdge) :
  expandNodes oreSources flowNodes emptyExpansion = Some st →
  ((∀ acc, distributeEdge (nodeKeyToExpandedIndexes st) e acc = Some acc) ↔
   (edge_from e ∉ nodeKey <$> flowNodes ∨ edge_to e ∉ nodeKey <$> flowNodes)) ∧
  (edge_from e ∈ nodeKey <$> flowNodes → edge_to e ∈ nodeKey <$> flowNodes →
   ∀ acc, ∃ x rest,
     distributeEdge (nodeKeyToExpandedIndexes st) e acc = Some (acc ++ x :: rest)).
Proof.
  intros Hrun.
  assert (edge_from e ∈ nodeKey <$> flowNodes → edge_to e ∈ nodeKey <$> flowNodes →
          ∀ acc, ∃ x rest,
            distributeEdge (nodeKeyToExpandedIndexes st) e acc = Some (acc ++ x :: rest))
    as Hkept.
  { intros Hf Ht acc.
    destruct (expandNodes_map_present _ _ _ _ _ Hf Hrun) as (fs & Efs & Hfs).
    destruct (expandNodes_map_present _ _ _ _ _ Ht Hrun) as (ts & Ets & Hts).
    rewrite distributeEdge_fan; rewrite ?Efs, ?Ets; [|done..]. simpl.
    destruct fs as [|f fs]; [done|]. destruct ts as [|t ts]; [done|].
    unfold fanOut. simpl. eauto. }
  split; [|done]. split.
  - intros Hdrop.
    destruct (decide (edge_from e ∈ nodeKey <$> flowNodes)) as [Hf|Hf]; [|by left].
    destruct (decide (edge_to e ∈ nodeKey <$> flowNodes)) as [Ht|Ht]; [|by right].
    destruct (Hkept Hf Ht []) as (x & rest & Hx). rewrite Hdrop in Hx. done.
  - intros Hmiss acc. apply distributeEdge_dropped.
    destruct Hmiss as [Hf|Ht].
    + left. by rewrite (expandNodes_map_other _ _ _ _ _ Hf Hrun).
    + right. by rewrite (expandNodes_map_other _ _ _ _ _ Ht Hrun).
Qed.

(** X4: the expanded edges are the concatenation, in the order of the base
    edges, of what each base edge emits; distributing a list of edges is
    distributing its first part and then its second part; and the number of
    expanded edges is the sum over the base edges of [F * T]. *)
Theorem distribution_is_concatenation
    (m : gmap string (list nat)) (first second : list ProductionEdge)
    (acc : list ExpandedEdge) :
  distributeEdges m (first ++ second) acc
    = distributeEdges m first acc ≫= distributeEdges m second ∧
  distributeEdges m first acc = Some (acc ++ mjoin (emittedFor m <$> first)) ∧
  length (mjoin (emittedFor m <$> first))
    = sum_list ((λ e, length (default [] (m !! edge_from e))
                      * length (default [] (m !! edge_to e)))%nat <$> first).
Proof.
  split; [|split].
  - rewrite !distributeEdges_closed. cbn [mbind option_bind].
    rewrite distributeEdges_closed, fmap_app, join_app. by rewrite app_assoc.
  - apply distributeEdges_closed.
  - induction first as [|e rest IH]; [done|].
    rewrite !fmap_cons. rewrite join_cons; cbn [sum_list sum_list_with]. rewrite length_app, IH.
    f_equal. unfold emittedFor. case_decide as H.
    + simpl. destruct H as [-> | ->]; lia.
    + apply length_fanOut.
Qed.

Lemma entriesOf_inv oreSources n e :
  e ∈ entriesOf oreSources n →
  (buildingId n = "ore_excavator" ∧
   ∃ j q, getOreSources oreSources (outputItem n) !! j = Some q ∧
          e = sourceEntry n (nodeKey n) (totalDemand n)
                (1 / Num.of_nat (length (getOreSources oreSources (outputItem n))))%Q
                (length (getOreSources oreSources (outputItem n))) q j) ∨
  (buildingId n ≠ "ore_excavator" ∧ e = mkExpandedNode n (nodeKey n) None None None).
Proof.
  unfold entriesOf. destruct (decide (buildingId n = "ore_excavator")) as [Hb|Hb].
  - intros (j & Hj)%list_elem_of_lookup. left. split; [done|].
    unfold excavatorEntries in Hj. rewrite lookup_sourceEntries in Hj.
    destruct (getOreSources oreSources (outputItem n) !! j) as [q|] eqn:E;
      simpl in Hj; [|done].
    injection Hj as <-. by exists j, q.
  - intros ->%list_elem_of_singleton. by right.
Qed.

(** X5: every expanded edge joins an expanded node that came from the node of
    the [from] key of its base edge to one that came from the node of the
    [to] key, and carries the item of the base edge. *)
Theorem edges_join_matching_nodes (p : FlowDataGenerationParams) (catalog : Catalog) :
  ∃ st expandedEdges,
    expandNodes (oreSourcesByItem p)
      (flow_nodes (buildProductionFlow (productionFlowParams p) catalog))
      emptyExpansion = Some st ∧
    distributeEdges (nodeKeyToExpandedIndexes st)
      (flow_edges (buildProductionFlow (productionFlowParams p) catalog)) []
      = Some expandedEdges ∧
    ∀ x, x ∈ expandedEdges →
         ∃ e a b,
           e ∈ flow_edges (buildProductionFlow (productionFlowParams p) catalog) ∧
           expandedNodes st !! fromIndex x = Some a ∧ originalKey a = edge_from e ∧
           expandedNodes st !! toIndex x = Some b ∧ originalKey b = edge_to e ∧
           itemId x = edge_itemId e.
Proof.
  destruct (expandNodes_total (oreSourcesByItem p)
              (flow_nodes (buildProductionFlow (productionFlowParams p) catalog))
              emptyExpansion) as [st Hst].
  exists st. eexists. split; [done|]. split; [apply distributeEdges_closed|].
  pose proof (expandNodes_keysSound _ _ _ _ emptyExpansion_keysSound Hst) as Hsound.
  intros x (l & Hx & (e & -> & He)%list_elem_of_fmap)%list_elem_of_join.
  destruct (emittedFor_payload _ _ _ Hx) as (Hf & Ht & Hi & _).
  destruct (nodeKeyToExpandedIndexes st !! edge_from e) as [fs|] eqn:Ef;
    simpl in Hf; [|by apply not_elem_of_nil in Hf].
  destruct (nodeKeyToExpandedIndexes st !! edge_to e) as [ts|] eqn:Et;
    simpl in Ht; [|by apply not_elem_of_nil in Ht].
  destruct (Hsound _ _ _ Ef Hf) as (a & Ha & Hka).
  destruct (Hsound _ _ _ Et Ht) as (b & Hb & Hkb).
  by exists e, a, b.
Qed.

(** X6: every expanded node comes from a flow node whose building and output
    item it keeps.  An entry of an ore excavator has a source index below
    its source count, which is the number of sources of the item, and its
    quality is the source at that index, so the fallbacks of the label
    ([?? 'normal'], [?? 0]) never apply and the callbacks get an index of an
    existing source; the button that removes a source is rendered exactly
    when the item has two sources or more.  Any other entry is the flow node
    itself, without source fields, quality selector or remove button. *)
Theorem source_controls_valid
    (oreSources : gmap string (list OreQuality)) (flowNodes : list ProductionNode)
    (st : Expansion) (e : ExpandedNode) :
  expandNodes oreSources flowNodes emptyExpansion = Some st →
  e ∈ expandedNodes st →
  ∃ n,
    n ∈ flowNodes ∧ originalKey e = nodeKey n ∧
    buildingId (node e) = buildingId n ∧ outputItem (node e) = outputItem n ∧
    (isOreExcavator (node e) = true →
     sourceIndex e = Some (callbackIndex e) ∧
     sourceCount e = Some (length (getOreSources oreSources (outputItem n))) ∧
     (callbackIndex e < length (getOreSources oreSources (outputItem n)))%nat ∧
     sourceQuality e = getOreSources oreSources (outputItem n) !! callbackIndex e ∧
     oreQuality e = sourceQuality e ∧
     (showsRemoveSource e = true
      ↔ (2 ≤ length (getOreSources oreSources (outputItem n)))%nat)) ∧
    (isOreExcavator (node e) = false →
     node e = n ∧ sourceIndex e = None ∧ sourceCount e = None ∧
     sourceQuality e = None ∧ oreQuality e = None ∧ showsRemoveSource e = false).
Proof.
  intros Hrun He.
  destruct (expandNodes_closed oreSources flowNodes emptyExpansion) as (st2 & Hrun2 & Hnodes).
  rewrite Hrun in Hrun2. injection Hrun2 as <-. simpl in Hnodes. rewrite Hnodes in He.
  apply list_elem_of_join in He as (l & He & (n & -> & Hn)%list_elem_of_fmap).
  exists n. split; [done|].
  destruct (entriesOf_inv _ _ _ He) as [(Hb & j & q & Hq & ->)|(Hb & ->)].
  - split; [done|]. split; [done|]. split; [done|].
    unfold isOreExcavator, oreQuality, showsRemoveSource, callbackIndex, isOreExcavator.
    cbn [node sourceEntry withSplit buildingId sourceIndex sourceCount sourceQuality
           default from_option].
    unfold Datatypes.id. rewrite bool_decide_eq_true_2 by done.
    split; [|done]. intros _.
    pose proof (lookup_lt_Some _ _ _ Hq) as Hlt.
    split; [done|]. split; [done|]. split; [done|]. split; [done|]. split; [done|].
    cbn [andb]. rewrite andb_true_iff, !bool_decide_eq_true. lia.
  - split; [done|]. split; [done|]. split; [done|].
    unfold isOreExcavator, oreQuality, showsRemoveSource, isOreExcavator.
    cbn [node sourceIndex sourceCount sourceQuality].
    rewrite bool_decide_eq_false_2 by done. split; [done|]. intros _. done.
Qed.

(** X8: when the total demand and the power per unit of an ore excavator are
    not negative, no node of its expansion has a negative unit count, and
    the power of each node, a whole number of units times the power per unit,
    covers its fractional unit count. *)
Theorem split_power_covers_count
    (oreSources : gmap string (list OreQuality)) (n : ProductionNode) (st : Expansion) :
  buildingId n = "ore_excavator" →
  (0 <= totalDemand n)%Q → (0 <= powerPerBuilding n)%Q →
  ∃ st' origins,
    expandNode oreSources n st = Some st' ∧
    expandedNodes st' = expandedNodes st ++ origins ∧
    Forall (λ e,
              (0 <= buildingCount (node e))%Q ∧
              powerPerBuilding (node e) = powerPerBuilding n ∧
              totalPower (node e)
                = (inject_Z (Qceiling (buildingCount (node e))) * powerPerBuilding n)%Q ∧
              (buildingCount (node e) * powerPerBuilding n <= totalPower (node e))%Q)
      origins.
Proof.
  intros Hb Hd Hp.
  destruct (expandNode_excavator oreSources n st Hb) as (st' & Hrun & Hnodes).
  exists st', (excavatorEntries oreSources n). split; [done|]. split; [done|].
  apply Forall_forall. intros e He.
  assert (e ∈ entriesOf oreSources n) as He'
    by (unfold entriesOf; by rewrite decide_True).
  destruct (entriesOf_inv _ _ _ He') as [(_ & j & q & Hq & ->)|(Hnb & _)]; [|done].
  pose proof (getOreSources_nonempty oreSources (outputItem n)) as Hlen.
  assert (0 <= splitCount (totalDemand n)
                 (1 / Num.of_nat (length (getOreSources oreSources (outputItem n))))
                 (ORE_QUALITY_RATES q))%Q as Hcount.
  { unfold splitCount. destruct (Num.gt0 (ORE_QUALITY_RATES q)) eqn:E;
      [|apply Qle_refl].
    apply gt0_spec in E. apply Qle_shift_div_l; [done|]. rewrite Qmult_0_l.
    apply Qmult_le_0_compat; [done|].
    apply Qle_shift_div_l.
    - unfold Num.of_nat, Qlt. simpl. lia.
    - rewrite Qmult_0_l. discriminate. }
  cbn [node sourceEntry withSplit buildingCount powerPerBuilding totalPower].
  split; [done|]. split; [done|]. split; [done|].
  apply Qmult_le_compat_r; [|done]. apply Qle_ceiling.
Qed.

(** X9: when the keys of the flow nodes are pairwise different, a base edge
    from the node [a] to the node [b] becomes as many edges as [a] has
    origins times [b] has origins, each with the item of the base edge;
    between two nodes that are not split it becomes exactly one edge. *)
Theorem edge_fan_out_by_sources
    (oreSources : gmap string (list OreQuality)) (flowNodes : list ProductionNode)
    (st : Expansion) (a b : ProductionNode) (e : ProductionEdge)
    (acc : list ExpandedEdge) :
  NoDup (nodeKey <$> flowNodes) → a ∈ flowNodes → b ∈ flowNodes →
  expandNodes oreSources flowNodes emptyExpansion = Some st →
  edge_from e = nodeKey a → edge_to e = nodeKey b →
  ∃ emitted,
    distributeEdge (nodeKeyToExpandedIndexes st) e acc = Some (acc ++ emitted) ∧
    length emitted = (originCount oreSources a * originCount oreSources b)%nat ∧
    Forall (λ x, itemId x = edge_itemId e) emitted ∧
    (originCount oreSources a = 1%nat → originCount oreSources b = 1%nat →
     ∃ x, emitted = [x]).
Proof.
  intros Hnd Ha Hb Hrun Hfrom Hto.
  assert (∀ k, k ∈ nodeKey <$> flowNodes →
               nodeKeyToExpandedIndexes emptyExpansion !! k = None) as Hfresh
    by (intros k _; apply lookup_empty).
  apply list_elem_of_split in Ha as (a1 & a2 & Ea).
  apply list_elem_of_split in Hb as (b1 & b2 & Eb).
  pose proof (expandNodes_map_unique oreSources flowNodes emptyExpansion st
                a1 a a2 Ea Hnd Hfresh Hrun) as Hma.
  pose proof (expandNodes_map_unique oreSources flowNodes emptyExpansion st
                b1 b b2 Eb Hnd Hfresh Hrun) as Hmb.
  rewrite <- Hfrom in Hma. rewrite <- Hto in Hmb.
  pose proof (originCount_pos oreSources a) as Hpa.
  pose proof (originCount_pos oreSources b) as Hpb.
  eexists. rewrite distributeEdge_fan; rewrite ?Hma, ?Hmb; cbn [default from_option].
  2, 3: unfold Datatypes.id; intros H; apply (f_equal length) in H;
    rewrite length_seq in H; simpl in H; lia.
  unfold Datatypes.id. rewrite !length_seq.
  split; [done|]. split; [by rewrite length_fanOut, !length_seq|]. split.
  - eapply Forall_impl; [apply fanOut_payload|]. by intros x [Hx _].
  - intros H1 H2. rewrite H1, H2. cbn [seq]. unfold fanOut. cbn [list_prod].
    simpl. eexists. done.
Qed.

Lemma foldl_totalPower (entries : list ExpandedNode) :
  ∀ start,
    (foldl (λ sum entry, (sum + totalPower (node entry))%Q) start entries
       == start + Num.sum ((λ entry, totalPower (node entry)) <$> entries))%Q.
Proof.
  induction entries as [|e rest IH]; intros start.
  - simpl. ring.
  - cbn [foldl]. rewrite IH. rewrite fmap_cons. cbn [Num.sum foldr].
    fold (Num.sum ((λ entry, totalPower (node entry)) <$> rest)). ring.
Qed.

Lemma nodeId_inj : Inj (=) (=) nodeId.
Proof.
  intros i j H. unfold nodeId in H. apply (inj (String.app "node_")) in H.
  by apply (inj pretty) in H.
Qed.

Lemma reactFlowNodes_ids (entries : list ExpandedNode) :
  node_id <$> reactFlowNodes entries = nodeId <$> seq 0 (length entries).
Proof.
  apply list_eq. intros i. unfold reactFlowNodes.
  rewrite !list_lookup_fmap, list_lookup_imap.
  destruct (entries !! i) as [entry|] eqn:E; simpl.
  - apply lookup_lt_Some in E. by rewrite lookup_seq_lt.
  - apply lookup_ge_None in E. by rewrite lookup_seq_ge.
Qed.

(** X10: the nodes of the flow graph are the expanded nodes in their order;
    the node at position [i] has the id [node_i], so the ids are pairwise
    different; and every node carries the same total power, the sum of the
    powers of all expanded nodes. *)
Theorem node_ids_unique (p : FlowDataGenerationParams) (catalog : Catalog) :
  ∃ st fd,
    expandNodes (oreSourcesByItem p)
      (flow_nodes (buildProductionFlow (productionFlowParams p) catalog))
      emptyExpansion = Some st ∧
    generateReactFlowData p catalog = Some fd ∧
    NoDup (node_id <$> nodes fd) ∧
    (∀ i, nodes fd !! i
          = (λ entry, mkFlowNode (nodeId i) entry (totalPowerConsumption (expandedNodes st)))
              <$> expandedNodes st !! i) ∧
    (totalPowerConsumption (expandedNodes st)
       == Num.sum ((λ entry, totalPower (node entry)) <$> expandedNodes st))%Q.
Proof.
  unfold generateReactFlowData.
  destruct (expandNodes_total (oreSourcesByItem p)
              (flow_nodes (buildProductionFlow (productionFlowParams p) catalog))
              emptyExpansion) as [st Hst].
  destruct (distributeEdges_total (nodeKeyToExpandedIndexes st)
              (flow_edges (buildProductionFlow (productionFlowParams p) catalog)) [])
    as [es Hes].
  rewrite Hst. simpl. rewrite Hes. simpl.
  exists st. eexists. split; [done|]. split; [done|]. simpl. split; [|split].
  - rewrite reactFlowNodes_ids. apply (@NoDup_fmap_2 _ _ nodeId nodeId_inj), NoDup_seq.
  - intros i. unfold reactFlowNodes. apply list_lookup_imap.
  - unfold totalPowerConsumption. rewrite foldl_totalPower. ring.
Qed.

(** X11: the first source the expansion uses for an item is the quality that
    is passed to [buildProductionFlow] for it, or 'normal' when none is
    passed. *)
Theorem first_source_is_provider_quality
    (oreSources : gmap string (list OreQuality)) (item : string) :
  getOreSources oreSources item !! 0%nat
    = Some (default "normal" (oreQualityByItem oreSources !! item)) ∧
  (∀ q, oreQualityByItem oreSources !! item = Some q →
        getOreSources oreSources item !! 0%nat = Some q).
Proof.
  assert (getOreSources oreSources item !! 0%nat
          = Some (default "normal" (oreQualityByItem oreSources !! item))) as H.
  { unfold getOreSources, oreQualityByItem. rewrite lookup_fmap.
    destruct (oreSources !! item) as [[|q rest]|]; done. }
  split; [done|]. intros q Hq. by rewrite H, Hq.
Qed.

Lemma forEachExpandedEdge_kept (es : list ExpandedEdge) :
  ∀ (seen : gset string) (acc : list FlowEdge),
    ∃ kept,
      forEachExpandedEdge es seen acc = acc ++ (reactFlowEdge <$> kept) ∧
      kept `sublist_of` es ∧
      (NoDup (edgeId <$> es) → (∀ e, e ∈ es → edgeId e ∉ seen) → kept = es).
Proof.
  induction es as [|e rest IH]; intros seen acc.
  - exists []. simpl. by rewrite app_nil_r.
  - cbn [forEachExpandedEdge]. destruct (decide (edgeId e ∈ seen)) as [Hin|Hnin].
    + destruct (IH seen acc) as (kept & Hrun & Hsub & _).
      exists kept. split; [done|]. split; [by apply sublist_cons|].
      intros _ Hfresh. exfalso. apply (Hfresh e); [apply list_elem_of_here|done].
    + destruct (IH ({[edgeId e]} ∪ seen) (acc ++ [reactFlowEdge e]))
        as (kept & Hrun & Hsub & Hall).
      exists (e :: kept). split; [|split].
      * rewrite Hrun, fmap_cons, <- app_assoc. done.
      * by apply sublist_skip.
      * intros Hnd Hfresh. rewrite fmap_cons in Hnd.
        apply NoDup_cons in Hnd as [Hne Hnd]. f_equal. apply Hall; [done|].
        intros x Hx [Heq%elem_of_singleton|Hs]%elem_of_union.
        -- apply Hne, list_elem_of_fmap. eauto.
        -- apply (Hfresh x); [by apply list_elem_of_further|done].
Qed.

(** X12: the edges of the flow graph are expanded edges in their order of
    emission, some of them left out; when the ids of the expanded edges are
    pairwise different none is left out. *)
Theorem unique_ids_keep_all_edges (es : list ExpandedEdge) :
  reactFlowEdges es `sublist_of` (reactFlowEdge <$> es) ∧
  (NoDup (edgeId <$> es) → reactFlowEdges es = reactFlowEdge <$> es) ∧
  (reactFlowEdges es = reactFlowEdge <$> es → NoDup (edgeId <$> es)).
Proof.
  destruct (forEachExpandedEdge_kept es ∅ []) as (kept & Hrun & Hsub & Hall).
  unfold reactFlowEdges. rewrite Hrun. simpl. split; [|split].
  - by apply fmap_sublist.
  - intros Hnd. rewrite Hall; [done..|]. intros e _. apply not_elem_of_empty.
  - intros Heq.
    destruct (forEachExpandedEdge_spec es ∅ []) as (H1 & _).
    { intros i. simpl. rewrite elem_of_empty. split; [done|].
      intros H. by apply not_elem_of_nil in H. }
    { simpl. apply NoDup_nil_2. }
    rewrite Hrun in H1. simpl in H1. rewrite Heq in H1.
    by rewrite <- list_fmap_compose in H1.
Qed.

Lemma expandNode_indexesNoDup oreSources n st st' :
  indexesBounded st → indexesNoDup st →
  expandNode oreSources n st = Some st' → indexesNoDup st'.
Proof.
  intros Hbound Hnd. rewrite expandNode_closed. intros [= <-]. intros k l. simpl.
  destruct (decide (nodeKey n = k)) as [<-|Hne].
  - rewrite lookup_insert_eq. intros [= <-]. apply NoDup_app.
    split; [|split; [|apply NoDup_seq]].
    + destruct (decide (buildingId n = "ore_excavator")); [|apply NoDup_nil_2].
      destruct (nodeKeyToExpandedIndexes st !! nodeKey n) as [old|] eqn:E; simpl;
        [by eapply Hnd|apply NoDup_nil_2].
    + intros i Hi [Hlo _]%elem_of_seq.
      destruct (decide (buildingId n = "ore_excavator")); [|by apply not_elem_of_nil in Hi].
      destruct (nodeKeyToExpandedIndexes st !! nodeKey n) as [old|] eqn:E; simpl in Hi;
        [|by apply not_elem_of_nil in Hi].
      specialize (Hbound _ _ _ E Hi). lia.
  - rewrite lookup_insert_ne by done. apply Hnd.
Qed.

Lemma expandNodes_indexesNoDup oreSources flowNodes :
  ∀ st st', indexesBounded st → indexesNoDup st →
            expandNodes oreSources flowNodes st = Some st' → indexesNoDup st'.
Proof.
  induction flowNodes as [|n rest IH]; intros st st' Hbound Hnd; simpl.
  - by intros [= <-].
  - destruct (expandNode oreSources n st) as [st1|] eqn:E; simpl; [|done].
    intros Hrun. eapply IH; [| |exact Hrun].
    + eapply expandNode_bounded; eauto.
    + eapply expandNode_indexesNoDup; eauto.
Qed.

Lemma NoDup_list_prod {A B} (l : list A) (k : list B) :
  NoDup l → NoDup k → NoDup (list_prod l k).
Proof.
  intros Hl Hk. induction Hl as [|x l Hx Hl IH]; [apply NoDup_nil_2|].
  cbn [list_prod]. change (List.map ?h ?t) with (h <$> t).
  apply NoDup_app. split; [|split; [|done]].
  - apply NoDup_fmap_2; [|done]. by intros ?? [= ->].
  - intros [a b] (b' & [= -> ->] & _)%list_elem_of_fmap Hin.
    apply list_elem_of_In, in_prod_iff in Hin as [Hin _].
    by apply list_elem_of_In in Hin.
Qed.

Lemma fanOut_ids_NoDup item amt fromIndexes toIndexes :
  NoDup fromIndexes → NoDup toIndexes →
  NoDup (edgeId <$> fanOut item amt fromIndexes toIndexes).
Proof.
  intros Hf Ht. apply NoDup_fmap_2_strong.
  - intros x y Hx Hy (Hxf & Hxt & _)%edgeId_inj.
    pose proof (proj1 (Forall_forall _ _) (fanOut_payload item amt fromIndexes toIndexes))
      as Hpay.
    destruct (Hpay x Hx) as [Hxi Hxa]. destruct (Hpay y Hy) as [Hyi Hya].
    destruct x, y. simpl in *. congruence.
  - apply (NoDup_fmap_1 (λ x, (fromIndex x, toIndex x))).
    rewrite fanOut_pairs. by apply NoDup_list_prod.
Qed.

Lemma emitted_ids_NoDup (m : gmap string (list nat)) (flowEdges : list ProductionEdge) :
  (∀ k l, m !! k = Some l → NoDup l) →
  (∀ k1 k2 l1 l2 i, m !! k1 = Some l1 → m !! k2 = Some l2 →
                    i ∈ l1 → i ∈ l2 → k1 = k2) →
  NoDup (edgeTriple <$> flowEdges) →
  NoDup (edgeId <$> mjoin (emittedFor m <$> flowEdges)).
Proof.
  intros Hnd Hdisj.
  assert (∀ k, NoDup (default [] (m !! k))) as Hnd'.
  { intros k. destruct (m !! k) as [l|] eqn:E; simpl; [by eapply Hnd|apply NoDup_nil_2]. }
  assert (∀ k1 k2 i, i ∈ default [] (m !! k1) → i ∈ default [] (m !! k2) → k1 = k2)
    as Hdisj'.
  { intros k1 k2 i H1 H2.
    destruct (m !! k1) as [l1|] eqn:E1; simpl in H1; [|by apply not_elem_of_nil in H1].
    destruct (m !! k2) as [l2|] eqn:E2; simpl in H2; [|by apply not_elem_of_nil in H2].
    by eapply Hdisj. }
  induction flowEdges as [|e rest IH]; intros Htriples; [apply NoDup_nil_2|].
  rewrite fmap_cons in Htriples. apply NoDup_cons in Htriples as [He Htriples].
  rewrite fmap_cons, join_cons, fmap_app. apply NoDup_app. split; [|split; [|by apply IH]].
  - unfold emittedFor. case_decide; [apply NoDup_nil_2|]. by apply fanOut_ids_NoDup.
  - intros i (x & -> & Hx)%list_elem_of_fmap (y & Heq & Hy)%list_elem_of_fmap.
    apply list_elem_of_join in Hy as (l & Hy & (e' & -> & He')%list_elem_of_fmap).
    apply edgeId_inj in Heq as (Hf & Ht & Hi).
    destruct (emittedFor_payload _ _ _ Hx) as (Hxf & Hxt & Hxi & _).
    destruct (emittedFor_payload _ _ _ Hy) as (Hyf & Hyt & Hyi & _).
    rewrite Hf in Hxf. rewrite Ht in Hxt.
    apply He, list_elem_of_fmap. exists e'. split; [|done].
    unfold edgeTriple. f_equal; [f_equal|]; [by eapply Hdisj'..|congruence].
Qed.

(** X17: when no two base edges have the same [from], [to] and item, the
    expanded edges have pairwise different ids, so the assembly discards
    none of them: the flow graph has one edge per expanded edge. *)
Theorem distinct_base_edges_lose_nothing
    (p : FlowDataGenerationParams) (catalog : Catalog) :
  NoDup (edgeTriple
           <$> flow_edges (buildProductionFlow (productionFlowParams p) catalog)) →
  ∃ st expandedEdges fd,
    expandNodes (oreSourcesByItem p)
      (flow_nodes (buildProductionFlow (productionFlowParams p) catalog))
      emptyExpansion = Some st ∧
    distributeEdges (nodeKeyToExpandedIndexes st)
      (flow_edges (buildProductionFlow (productionFlowParams p) catalog)) []
      = Some expandedEdges ∧
    generateReactFlowData p catalog = Some fd ∧
    NoDup (edgeId <$> expandedEdges) ∧
    edges fd = reactFlowEdge <$> expandedEdges.
Proof.
  intros Htriples. unfold generateReactFlowData.
  destruct (expandNodes_total (oreSourcesByItem p)
              (flow_nodes (buildProductionFlow (productionFlowParams p) catalog))
              emptyExpansion) as [st Hst].
  pose proof (distributeEdges_closed (nodeKeyToExpandedIndexes st)
                (flow_edges (buildProductionFlow (productionFlowParams p) catalog)) [])
    as Hes.
  rewrite app_nil_l in Hes. rewrite Hst. cbn [mbind option_bind].
  rewrite Hes. cbn [mbind option_bind].
  exists st. eexists _, _. split; [done|]. split; [exact Hes|]. split; [reflexivity|].
  assert (NoDup (edgeId <$> mjoin
                   (emittedFor (nodeKeyToExpandedIndexes st)
                      <$> flow_edges (buildProductionFlow (productionFlowParams p) catalog))))
    as Hids.
  { apply emitted_ids_NoDup; [| |done].
    - eapply (expandNodes_indexesNoDup _ _ _ _ emptyExpansion_bounded); [|exact Hst].
      intros k l. simpl. by rewrite lookup_empty.
    - pose proof (expandNodes_keysSound _ _ _ _ emptyExpansion_keysSound Hst) as Hsound.
      intros k1 k2 l1 l2 i E1 E2 H1 H2.
      destruct (Hsound _ _ _ E1 H1) as (a & Ha & <-).
      destruct (Hsound _ _ _ E2 H2) as (b & Hb & <-). congruence. }
  split; [done|]. cbn [edges].
  destruct (forEachExpandedEdge_kept
              (mjoin (emittedFor (nodeKeyToExpandedIndexes st)
                        <$> flow_edges (buildProductionFlow (productionFlowParams p) catalog)))
              ∅ []) as (kept & Hrun & _ & Hall).
  unfold reactFlowEdges. rewrite Hrun. simpl. rewrite Hall; [done..|].
  intros e _. apply not_elem_of_empty.
Qed.

End Pipeline.

(** * The arithmetic in doubles *)

Section DoubleArithmetic.

Variable ORE_QUALITY_RATES : OreQuality → float.

Lemma double_forEachSource_nodes n key demand share count sources :
  ∀ index st,
    Double.expandedNodes
      (Double.forEachSource ORE_QUALITY_RATES n key demand share count sources index st)
    = Double.expandedNodes st
        ++ Double.sourceEntries ORE_QUALITY_RATES n key demand share count sources index.
Proof.
  induction sources as [|q rest IH]; intros index st.
  - simpl. by rewrite app_nil_r.
  - cbn [Double.forEachSource Double.sourceEntries]. rewrite IH. simpl.
    by rewrite <- app_assoc.
Qed.

Lemma double_length_sourceEntries n key demand share count sources :
  ∀ index,
    length (Double.sourceEntries ORE_QUALITY_RATES n key demand share count sources index)
    = length sources.
Proof.
  induction sources as [|q rest IH]; intros index; simpl; [done|]. by rewrite IH.
Qed.

Lemma double_lookup_sourceEntries n key demand share count sources :
  ∀ index j,
    Double.sourceEntries ORE_QUALITY_RATES n key demand share count sources index !! j
    = (λ q, Double.sourceEntry ORE_QUALITY_RATES n key demand share count q (index + j))
        <$> (sources !! j).
Proof.
  induction sources as [|q rest IH]; intros index j; simpl; [done|].
  destruct j as [|j]; simpl.
  - by rewrite Nat.add_0_r.
  - rewrite IH. by rewrite Nat.add_succ_r.
Qed.

Lemma double_expandNode_excavator oreSources n st :
  Double.buildingId n = "ore_excavator" →
  Double.expandedNodes (Double.expandNode ORE_QUALITY_RATES oreSources n st)
  = Double.expandedNodes st
      ++ Double.sourceEntries ORE_QUALITY_RATES n (Double.nodeKey n) (Double.totalDemand n)
           (1 / Double.of_nat (length (getOreSources oreSources (Double.outputItem n))))%float
           (length (getOreSources oreSources (Double.outputItem n)))
           (getOreSources oreSources (Double.outputItem n)) 0.
Proof.
  intros Hb. unfold Double.expandNode. rewrite decide_True by done.
  rewrite double_forEachSource_nodes. unfold Double.sourceShare.
  by rewrite decide_True by apply getOreSources_nonempty.
Qed.

Lemma double_ceil_zero : Double.ceil 0%float = 0%float.
Proof. reflexivity. Qed.

Lemma double_zero_times_zero : (0 * 0)%float = 0%float.
Proof. reflexivity. Qed.

Lemma double_zero_not_positive : (0 <? 0)%float = false.
Proof. reflexivity. Qed.

(** C1 (as amended): an ore excavator node is replaced by one node per
    configured source.  The node of a source of positive rate [r] has the
    output amount [r] and [(total * (1 / N)) / r] units, so the demand
    recovered from it is the double [((total * (1 / N)) / r) * r]; the node
    of a source whose rate is not positive has 0 units, and for the rate 0
    the demand recovered from it is 0.  For a total demand of 100 and two
    sources of rates 5 and 10 the recovered demands add up to 100. *)
Theorem double_split_shares
    (oreSources : gmap string (list OreQuality)) (n : Double.ProductionNode)
    (st : Double.Expansion) :
  Double.buildingId n = "ore_excavator" →
  ∃ origins,
    Double.expandedNodes (Double.expandNode ORE_QUALITY_RATES oreSources n st)
      = Double.expandedNodes st ++ origins ∧
    length origins = length (getOreSources oreSources (Double.outputItem n)) ∧
    (∀ i q,
       getOreSources oreSources (Double.outputItem n) !! i = Some q →
       ∃ e,
         origins !! i = Some e ∧
         Double.outputAmount (Double.node e) = ORE_QUALITY_RATES q ∧
         ((0 <? ORE_QUALITY_RATES q)%float = true →
          Double.buildingCount (Double.node e)
            = (Double.totalDemand n
               * (1 / Double.of_nat (length (getOreSources oreSources (Double.outputItem n))))
               / ORE_QUALITY_RATES q)%float ∧
          Double.servedDemand e
            = (Double.totalDemand n
               * (1 / Double.of_nat (length (getOreSources oreSources (Double.outputItem n))))
               / ORE_QUALITY_RATES q * ORE_QUALITY_RATES q)%float) ∧
         ((0 <? ORE_QUALITY_RATES q)%float = false →
          Double.buildingCount (Double.node e) = 0%float) ∧
         (ORE_QUALITY_RATES q = 0%float →
          Double.buildingCount (Double.node e) = 0%float ∧
          Double.totalPower (Double.node e) = (0 * Double.powerPerBuilding n)%float ∧
          Double.servedDemand e = 0%float)) ∧
    (∀ q1 q2,
       getOreSources oreSources (Double.outputItem n) = [q1; q2] →
       Double.totalDemand n = 100%float →
       ORE_QUALITY_RATES q1 = 5%float → ORE_QUALITY_RATES q2 = 10%float →
       Double.sum (Double.servedDemand <$> origins) = 100%float).
Proof.
  intros Hb. eexists. split; [by apply double_expandNode_excavator|].
  split; [apply double_length_sourceEntries|]. split.
  - intros i q Hq. eexists. split; [by rewrite double_lookup_sourceEntries, Hq|].
    unfold Double.servedDemand, Double.totalDemand, Double.sourceEntry,
      Double.splitBuildingCount.
    cbn [Double.node Double.withSplit Double.outputAmount Double.buildingCount
           Double.totalPower].
    split; [done|]. split; [|split].
    + intros Hpos. by rewrite Hpos.
    + intros Hneg. by rewrite Hneg.
    + intros Hzero. rewrite Hzero, double_zero_not_positive, double_ceil_zero.
      by rewrite double_zero_times_zero.
  - intros q1 q2 Hsrc Htotal H1 H2. rewrite Hsrc, Htotal.
    cbn [Double.sourceEntries fmap list_fmap length].
    unfold Double.servedDemand, Double.totalDemand, Double.sourceEntry,
      Double.splitBuildingCount.
    cbn [Double.node Double.withSplit Double.outputAmount Double.buildingCount].
    rewrite H1, H2. reflexivity.
Qed.

(** ** The distribution in doubles *)

Lemma double_forEachTo_eq fromIdx item amt toIndexes :
  ∀ acc, Double.forEachTo fromIdx item amt toIndexes acc
         = acc ++ ((λ t, Double.mkExpandedEdge fromIdx t item amt) <$> toIndexes).
Proof.
  induction toIndexes as [|t rest IH]; intros acc; simpl.
  - by rewrite app_nil_r.
  - rewrite IH. by rewrite <- app_assoc.
Qed.

Lemma double_forEachFrom_eq item amt fromIndexes toIndexes :
  ∀ acc, Double.forEachFrom item amt fromIndexes toIndexes acc
         = acc ++ Double.fanOut item amt fromIndexes toIndexes.
Proof.
  unfold Double.fanOut.
  induction fromIndexes as [|f rest IH]; intros acc; simpl.
  - by rewrite app_nil_r.
  - rewrite IH, double_forEachTo_eq, fmap_app, <- app_assoc. do 2 f_equal.
    rewrite <- list_fmap_compose. reflexivity.
Qed.

Lemma double_length_fanOut item amt fromIndexes toIndexes :
  length (Double.fanOut item amt fromIndexes toIndexes)
    = (length fromIndexes * length toIndexes)%nat.
Proof. unfold Double.fanOut. by rewrite length_fmap, length_prod. Qed.

Lemma double_fanOut_pairs item amt fromIndexes toIndexes :
  (λ x, (Double.fromIndex x, Double.toIndex x))
    <$> Double.fanOut item amt fromIndexes toIndexes
  = list_prod fromIndexes toIndexes.
Proof.
  unfold Double.fanOut. rewrite <- list_fmap_compose.
  rewrite <- (list_fmap_id (list_prod fromIndexes toIndexes)) at 2.
  apply list_fmap_ext. by intros ? [??].
Qed.

Lemma double_fanOut_payload item amt fromIndexes toIndexes :
  Forall (λ x, Double.itemId x = item ∧ Double.amount x = amt)
    (Double.fanOut item amt fromIndexes toIndexes).
Proof. unfold Double.fanOut. apply Forall_fmap, Forall_true. by intros [??]. Qed.

Lemma double_fanOut_indexes item amt fromIndexes toIndexes x :
  x ∈ Double.fanOut item amt fromIndexes toIndexes →
  Double.fromIndex x ∈ fromIndexes ∧ Double.toIndex x ∈ toIndexes.
Proof.
  unfold Double.fanOut. intros ([f t] & -> & Hin)%list_elem_of_fmap. simpl.
  apply list_elem_of_In, in_prod_iff in Hin.
  by rewrite !list_elem_of_In.
Qed.

Lemma double_distributeEdge_fan (m : gmap string (list nat)) e acc fromIndexes toIndexes :
  m !! Double.edge_from e = Some fromIndexes → m !! Double.edge_to e = Some toIndexes →
  (1 ≤ length fromIndexes)%nat → (1 ≤ length toIndexes)%nat →
  Double.distributeEdge m e acc
  = acc ++ Double.fanOut (Double.edge_itemId e)
             (Double.edge_amount e * (1 / Double.of_nat (length fromIndexes)))%float
             fromIndexes toIndexes.
Proof.
  intros Hf Ht HF HT. unfold Double.distributeEdge. rewrite Hf, Ht. simpl.
  rewrite decide_False by lia. apply double_forEachFrom_eq.
Qed.

Lemma double_filter_from item amt (f : nat) fromIndexes toIndexes :
  NoDup fromIndexes → f ∈ fromIndexes →
  filter (λ x, Double.fromIndex x = f) (Double.fanOut item amt fromIndexes toIndexes)
  = (λ t, Double.mkExpandedEdge f t item amt) <$> toIndexes.
Proof.
  assert (∀ g, filter (λ x, Double.fromIndex x = f)
                 ((λ ft : nat * nat, Double.mkExpandedEdge ft.1 ft.2 item amt)
                    <$> ((λ t, (g, t)) <$> toIndexes))
               = if decide (g = f)
                 then (λ t, Double.mkExpandedEdge g t item amt) <$> toIndexes else [])
    as Hrow.
  { intros g. induction toIndexes as [|t rest IH].
    - simpl. by destruct (decide (g = f)).
    - rewrite !fmap_cons, filter_cons, IH. cbn [Double.fromIndex fst].
      by destruct (decide (g = f)). }
  assert (∀ l, f ∉ l →
               filter (λ x, Double.fromIndex x = f) (Double.fanOut item amt l toIndexes)
               = []) as Hnone.
  { intros l Hl. apply elem_of_nil_inv. intros x [Hx Hin]%list_elem_of_filter.
    apply double_fanOut_indexes in Hin as [Hin _]. by rewrite Hx in Hin. }
  unfold Double.fanOut in *.
  induction 1 as [|g rest Hg Hnd IH]; intros Hin.
  - by apply not_elem_of_nil in Hin.
  - cbn [list_prod]. change (List.map ?h ?l) with (h <$> l).
    rewrite fmap_app, filter_app, Hrow.
    destruct (decide (g = f)) as [->|Hne].
    + rewrite Hnone by done. by rewrite app_nil_r.
    + apply elem_of_cons in Hin as [->|Hin]; [done|]. by rewrite IH.
Qed.

Lemma double_filter_to item amt (t : nat) fromIndexes toIndexes :
  NoDup toIndexes → t ∈ toIndexes →
  filter (λ x, Double.toIndex x = t) (Double.fanOut item amt fromIndexes toIndexes)
  = (λ f, Double.mkExpandedEdge f t item amt) <$> fromIndexes.
Proof.
  intros Hnd Hin.
  assert (∀ g, filter (λ x, Double.toIndex x = t)
                 ((λ ft : nat * nat, Double.mkExpandedEdge ft.1 ft.2 item amt)
                    <$> ((λ t', (g, t')) <$> toIndexes))
               = [Double.mkExpandedEdge g t item amt]) as Hrow.
  { intros g. clear fromIndexes.
    induction Hnd as [|t' rest Ht' Hnd IH]; [by apply not_elem_of_nil in Hin|].
    rewrite !fmap_cons, filter_cons. cbn [Double.toIndex fst snd].
    destruct (decide (t' = t)) as [->|Hne].
    - f_equal. apply elem_of_nil_inv. intros x [Hx Hm]%list_elem_of_filter.
      apply list_elem_of_fmap in Hm as ([g' t''] & -> & Hm).
      apply list_elem_of_fmap in Hm as (t3 & [= -> ->] & Hm). simpl in Hx.
      by rewrite Hx in Hm.
    - apply elem_of_cons in Hin as [->|Hin]; [done|]. by apply IH. }
  unfold Double.fanOut. induction fromIndexes as [|g rest IH]; [done|].
  cbn [list_prod]. change (List.map ?h ?l) with (h <$> l).
  rewrite fmap_app, filter_app, Hrow, IH. done.
Qed.

Lemma double_all_equal (a : float) (l : list float) :
  Forall (λ x, x = a) l → l = replicate (length l) a.
Proof. induction 1 as [|x l -> _ IH]; [done|]. simpl. by rewrite <- IH. Qed.

(** C2 (as amended): the edges emitted for a base edge of amount [A] whose
    keys resolve to [F >= 1] and [T >= 1] indexes all carry the double
    [A * (1 / F)]; [T] of them leave each expansion of the source and [F] of
    them enter each expansion of the destination.  The sum of their amounts
    is the sum of [F * T] copies of that double; for [A = 9], [F = 3] and
    [T = 1] it is 9. *)
Theorem double_edge_amounts
    (m : gmap string (list nat)) (e : Double.ProductionEdge)
    (acc : list Double.ExpandedEdge) (fromIndexes toIndexes : list nat) :
  m !! Double.edge_from e = Some fromIndexes → m !! Double.edge_to e = Some toIndexes →
  (1 ≤ length fromIndexes)%nat → (1 ≤ length toIndexes)%nat →
  ∃ emitted,
    Double.distributeEdge m e acc = acc ++ emitted ∧
    length emitted = (length fromIndexes * length toIndexes)%nat ∧
    Forall (λ x, Double.amount x
                 = (Double.edge_amount e * (1 / Double.of_nat (length fromIndexes)))%float)
      emitted ∧
    Double.sum (Double.amount <$> emitted)
      = Double.sum
          (replicate (length fromIndexes * length toIndexes)
             (Double.edge_amount e * (1 / Double.of_nat (length fromIndexes)))%float) ∧
    (NoDup fromIndexes → ∀ f, f ∈ fromIndexes →
       length (filter (λ x, Double.fromIndex x = f) emitted) = length toIndexes) ∧
    (NoDup toIndexes → ∀ t, t ∈ toIndexes →
       length (filter (λ x, Double.toIndex x = t) emitted) = length fromIndexes) ∧
    (Double.edge_amount e = 9%float → length fromIndexes = 3%nat →
     length toIndexes = 1%nat →
     Double.sum (Double.amount <$> emitted) = 9%float).
Proof.
  intros Hf Ht HF HT. eexists.
  split; [by apply double_distributeEdge_fan|].
  assert (Forall (λ x, x = (Double.edge_amount e
                            * (1 / Double.of_nat (length fromIndexes)))%float)
            (Double.amount
               <$> Double.fanOut (Double.edge_itemId e)
                     (Double.edge_amount e * (1 / Double.of_nat (length fromIndexes)))%float
                     fromIndexes toIndexes)) as Hall.
  { apply Forall_fmap. eapply Forall_impl; [apply double_fanOut_payload|].
    by intros x [_ Hx]. }
  assert (Double.amount
            <$> Double.fanOut (Double.edge_itemId e)
                  (Double.edge_amount e * (1 / Double.of_nat (length fromIndexes)))%float
                  fromIndexes toIndexes
          = replicate (length fromIndexes * length toIndexes)
              (Double.edge_amount e * (1 / Double.of_nat (length fromIndexes)))%float)
    as Hrep.
  { rewrite (double_all_equal _ _ Hall) at 1.
    by rewrite length_fmap, double_length_fanOut. }
  split; [apply double_length_fanOut|]. split.
  { eapply Forall_impl; [apply double_fanOut_payload|]. by intros x [_ Hx]. }
  split; [by rewrite Hrep|]. split; [|split].
  - intros Hnd f Hin. by rewrite double_filter_from, length_fmap.
  - intros Hnd t Hin. by rewrite double_filter_to, length_fmap.
  - intros HA H3 H1. rewrite Hrep, HA, H3, H1. reflexivity.
Qed.

(** C3 (as amended): a base edge whose keys resolve to [F >= 1] and [T >= 1]
    indexes is replaced by [F * T] edges, one per pair of the cartesian
    product of the two index lists, each with the item of the base edge and
    the amount [A * (1 / F)] as the doubles give it; an edge of amount 9 from
    a source split three ways to a destination that is not split gives 3
    edges of amount 3 into that destination. *)
Theorem double_edge_fan_out
    (m : gmap string (list nat)) (e : Double.ProductionEdge)
    (acc : list Double.ExpandedEdge) (fromIndexes toIndexes : list nat) :
  m !! Double.edge_from e = Some fromIndexes → m !! Double.edge_to e = Some toIndexes →
  (1 ≤ length fromIndexes)%nat → (1 ≤ length toIndexes)%nat →
  ∃ emitted,
    Double.distributeEdge m e acc = acc ++ emitted ∧
    length emitted = (length fromIndexes * length toIndexes)%nat ∧
    (λ x, (Double.fromIndex x, Double.toIndex x)) <$> emitted
      = list_prod fromIndexes toIndexes ∧
    Forall (λ x, Double.itemId x = Double.edge_itemId e ∧
                 Double.amount x
                 = (Double.edge_amount e * (1 / Double.of_nat (length fromIndexes)))%float)
      emitted ∧
    (∀ t, Double.edge_amount e = 9%float → length fromIndexes = 3%nat →
          toIndexes = [t] →
          length emitted = 3%nat ∧
          Forall (λ x, Double.amount x = 3%float ∧ Double.toIndex x = t) emitted).
Proof.
  intros Hf Ht HF HT. eexists.
  split; [by apply double_distributeEdge_fan|].
  split; [apply double_length_fanOut|]. split; [apply double_fanOut_pairs|].
  split; [apply double_fanOut_payload|].
  intros t H9 H3 ->. split; [rewrite double_length_fanOut, H3; done|].
  apply Forall_forall. intros x Hx.
  pose proof (double_fanOut_indexes _ _ _ _ _ Hx) as [_ Hto].
  apply list_elem_of_singleton in Hto.
  pose proof (proj1 (Forall_forall _ _) (double_fanOut_payload _ _ _ _) x Hx) as [_ Ha].
  cbv beta. split; [|done]. rewrite Ha, H9, H3. reflexivity.
Qed.

End DoubleArithmetic.

(** * [BuildingImage] *)

Lemma includes_replaceAll_source (c d : ascii) (s : string) :
  c ≠ d → includes c (replaceAll c d s) = false.
Proof.
  intros Hcd. induction s as [|x s IH]; [done|]. cbn [replaceAll includes].
  rewrite IH, orb_false_r. destruct (Ascii.eqb_spec x c) as [->|Hx].
  - apply Ascii.eqb_neq. congruence.
  - by apply Ascii.eqb_neq.
Qed.

Lemma includes_replaceAll_target (c d : ascii) (s : string) :
  includes c s = true → includes d (replaceAll c d s) = true.
Proof.
  induction s as [|x s IH]; [done|]. cbn [replaceAll includes].
  destruct (Ascii.eqb_spec x c) as [->|Hx]; simpl.
  - intros _. by rewrite Ascii.eqb_refl.
  - intros H. by rewrite IH, orb_true_r.
Qed.

Lemma replaceAll_absent (c d : ascii) (s : string) :
  includes c s = false → replaceAll c d s = s.
Proof.
  induction s as [|x s IH]; [done|]. cbn [replaceAll includes].
  intros [Hx Hs]%orb_false_elim. by rewrite Hx, IH.
Qed.

Lemma replaceAll_fixed (c d : ascii) (s : string) :
  c ≠ d → replaceAll c d s = s → includes c s = false.
Proof.
  intros Hcd H. rewrite <- H. by apply includes_replaceAll_source.
Qed.

Lemma replaceAll_inverse (c d : ascii) (s : string) :
  includes d s = false → replaceAll d c (replaceAll c d s) = s.
Proof.
  induction s as [|x s IH]; [done|]. cbn [replaceAll includes].
  intros [Hx Hs]%orb_false_elim. rewrite IH by done. f_equal.
  destruct (Ascii.eqb_spec x c) as [->|Hxc].
  - by rewrite Ascii.eqb_refl.
  - by rewrite Hx.
Qed.

Lemma length_replaceAll (c d : ascii) (s : string) :
  String.length (replaceAll c d s) = String.length s.
Proof. induction s as [|x s IH]; [done|]. simpl. by rewrite IH. Qed.

Lemma dash_neq_underscore : "-"%char ≠ "_"%char.
Proof. discriminate. Qed.

Lemma underscore_neq_dash : "_"%char ≠ "-"%char.
Proof. discriminate. Qed.

Lemma normalizedId_fixed (bid : string) :
  normalizedId bid = bid ↔
  includes "-"%char bid = false ∧ includes "_"%char bid = false.
Proof.
  unfold normalizedId. destruct (includes "-"%char bid) eqn:Hd.
  - split; [|by intros [? _]]. intros H.
    apply (replaceAll_fixed _ _ _ dash_neq_underscore) in H. congruence.
  - split.
    + intros H. split; [done|]. by apply (replaceAll_fixed _ _ _ underscore_neq_dash).
    + intros [_ Hu]. by apply replaceAll_absent.
Qed.

(** X13: the normalized id has the length of the building id.  The
    normalized id of an id with a dash has no dash, that of an id without a
    dash has no underscore, and it is the id itself exactly when the id has
    neither. *)
Theorem normalizedId_separators (bid : string) :
  String.length (normalizedId bid) = String.length bid ∧
  (includes "-"%char bid = true → includes "-"%char (normalizedId bid) = false) ∧
  (includes "-"%char bid = false → includes "_"%char (normalizedId bid) = false) ∧
  (normalizedId bid = bid ↔
   includes "-"%char bid = false ∧ includes "_"%char bid = false).
Proof.
  split; [|split; [|split]].
  - unfold normalizedId. destruct (includes "-"%char bid); apply length_replaceAll.
  - intros H. unfold normalizedId. rewrite H.
    apply includes_replaceAll_source, dash_neq_underscore.
  - intros H. unfold normalizedId. rewrite H.
    apply includes_replaceAll_source, underscore_neq_dash.
  - apply normalizedId_fixed.
Qed.

(** X14: normalizing twice gives the building id back exactly when the id
    does not mix dashes and underscores. *)
Theorem normalizedId_round_trip (bid : string) :
  normalizedId (normalizedId bid) = bid ↔
  ¬ (includes "-"%char bid = true ∧ includes "_"%char bid = true).
Proof.
  destruct (includes "-"%char bid) eqn:Hd; destruct (includes "_"%char bid) eqn:Hu.
  - split; [|intros H; exfalso; by apply H]. intros H _.
    assert (includes "_"%char (normalizedId (normalizedId bid)) = false) as Hnone.
    { assert (includes "-"%char (normalizedId bid) = false) as H1.
      { unfold normalizedId. rewrite Hd.
        apply includes_replaceAll_source, dash_neq_underscore. }
      unfold normalizedId at 1. rewrite H1.
      apply includes_replaceAll_source, underscore_neq_dash. }
    rewrite H in Hnone. congruence.
  - split; [intros _ [_ ?]; done|]. intros _.
    assert (normalizedId bid = replaceAll "-"%char "_"%char bid) as E
      by (unfold normalizedId; by rewrite Hd).
    unfold normalizedId at 1. rewrite E.
    rewrite (includes_replaceAll_source _ _ _ dash_neq_underscore).
    by apply replaceAll_inverse.
  - split; [intros _ [? _]; done|]. intros _.
    assert (normalizedId bid = replaceAll "_"%char "-"%char bid) as E
      by (unfold normalizedId; by rewrite Hd).
    unfold normalizedId at 1. rewrite E.
    rewrite (includes_replaceAll_target _ "-"%char _ Hu).
    by apply replaceAll_inverse.
  - split; [intros _ [? _]; done|]. intros _.
    assert (normalizedId bid = bid) as E by by apply normalizedId_fixed.
    by rewrite !E.
Qed.

Lemma length_append (a b : string) :
  String.length (a +:+ b) = (String.length a + String.length b)%nat.
Proof.
  induction a as [|x a IH]; [done|]. rewrite append_cons. simpl. by rewrite IH.
Qed.

Lemma append_inj_suffix (t a b : string) : a +:+ t = b +:+ t → a = b.
Proof.
  revert b. induction a as [|x a IH]; intros [|y b] H.
  - done.
  - apply (f_equal String.length) in H. rewrite append_nil, !length_append in H.
    simpl in H. lia.
  - apply (f_equal String.length) in H. rewrite append_nil, !length_append in H.
    simpl in H. lia.
  - rewrite !append_cons in H. injection H as -> H. f_equal. by apply IH.
Qed.

Lemma iconPath_inj (a b : string) : iconPath a = iconPath b → a = b.
Proof.
  unfold iconPath. intros H. apply (inj (String.app "/icons/buildings/")) in H.
  by apply append_inj_suffix in H.
Qed.

(** X15: the image first shown is always the icon of the building id as
    given.  There is one candidate when the id has neither a dash nor an
    underscore, and otherwise a second, different one: the icon of the
    normalized id. *)
Theorem image_candidates (bid : string) :
  imagePath bid = Some (iconPath bid) ∧
  NoDup (candidates bid) ∧
  (includes "-"%char bid = false ∧ includes "_"%char bid = false →
   candidates bid = [iconPath bid]) ∧
  (includes "-"%char bid = true ∨ includes "_"%char bid = true →
   candidates bid = [iconPath bid; iconPath (normalizedId bid)]).
Proof.
  unfold imagePath, candidates, variants.
  destruct (decide (bid = normalizedId bid)) as [E|E].
  - symmetry in E. apply normalizedId_fixed in E as [Hd Hu].
    split; [done|]. split; [apply NoDup_singleton|]. split; [done|].
    intros [H|H]; congruence.
  - split; [done|]. split; [|split].
    + apply NoDup_cons. split; [|apply NoDup_singleton].
      intros H%list_elem_of_singleton. by apply iconPath_inj in H.
    + intros H. apply normalizedId_fixed in H. congruence.
    + done.
Qed.

Lemma onError_iter (cands : list string) (k : nat) :
  (0 < length cands)%nat →
  Nat.iter k (onError cands) (mkImgTarget None (cands !! 0%nat) false)
  = if decide (k < length cands)%nat
    then mkImgTarget (if decide (k = 0)%nat then None else Some k) (cands !! k) false
    else mkImgTarget
           (if decide (length cands ≤ 1)%nat then None else Some (length cands - 1)%nat)
           (cands !! (length cands - 1)%nat) true.
Proof.
  intros Hlen. induction k as [|k IH].
  - simpl. by rewrite decide_True.
  - rewrite Nat.iter_succ, IH.
    destruct (decide (k < length cands)%nat) as [Hk|Hk];
      unfold onError; cbn [iconIndex src displayNone].
    + assert (default 0%nat (if decide (k = 0%nat) then None else Some k) = k) as ->
        by (destruct (decide (k = 0%nat)); simpl; lia).
      rewrite Nat.add_1_r.
      destruct (decide (S k < length cands)%nat) as [Hk'|Hk']; [done|].
      assert (k = (length cands - 1)%nat) as Ek by lia.
      f_equal; [|by rewrite Ek].
      destruct (decide (k = 0%nat)), (decide (length cands ≤ 1)%nat);
        try done; try lia. f_equal. lia.
    + rewrite (decide_False (P := (S k < length cands)%nat)) by lia.
      destruct (decide (length cands ≤ 1)%nat); simpl.
      * rewrite decide_False by lia. done.
      * rewrite decide_False by lia. done.
Qed.

(** X16: each load error moves the image to the next candidate, in order;
    once every candidate has failed the image is hidden and stays hidden.
    The handler never reads outside the candidates, so the image always has
    a source, and it is hidden after two errors at the latest. *)
Theorem fallback_chain (bid : string) (k : nat) :
  ((k < length (candidates bid))%nat →
   src (Nat.iter k (onError (candidates bid)) (renderedImg bid)) = candidates bid !! k ∧
   displayNone (Nat.iter k (onError (candidates bid)) (renderedImg bid)) = false) ∧
  ((length (candidates bid) ≤ k)%nat →
   displayNone (Nat.iter k (onError (candidates bid)) (renderedImg bid)) = true) ∧
  (∃ path, src (Nat.iter k (onError (candidates bid)) (renderedImg bid)) = Some path ∧
           path ∈ candidates bid) ∧
  ((2 ≤ k)%nat →
   displayNone (Nat.iter k (onError (candidates bid)) (renderedImg bid)) = true).
Proof.
  assert (0 < length (candidates bid) ≤ 2)%nat as Hlen.
  { unfold candidates, variants. destruct (decide (bid = normalizedId bid)); simpl; lia. }
  unfold renderedImg, imagePath. rewrite onError_iter by lia.
  destruct (decide (k < length (candidates bid))%nat) as [Hk|Hk];
    cbn [src displayNone].
  - split; [done|]. split; [lia|]. split; [|lia].
    destruct (lookup_lt_is_Some_2 (candidates bid) k Hk) as [path Hpath].
    exists path. split; [done|]. by eapply list_elem_of_lookup_2.
  - split; [lia|]. split; [done|]. split; [|done].
    destruct (lookup_lt_is_Some_2 (candidates bid) (length (candidates bid) - 1))
      as [path Hpath]; [lia|].
    exists path. split; [done|]. by eapply list_elem_of_lookup_2.
Qed.

(** * The statements on the sample inputs *)

(** The expansion of the sample flow with three sources gives [sampleKeyMap]. *)
Example sample_expansion_keys :
  nodeKeyToExpandedIndexes
    <$> expandNodes sampleRates (sampleSources ["impure"; "normal"; "pure"])
          (flow_nodes (sampleFlow 9 9)) emptyExpansion
  = Some sampleKeyMap.
Proof. vm_compute. reflexivity. Qed.

(** Scenario 1: a chain of two nodes that are not split, joined by an edge of
    amount 10, gives two nodes and one edge of amount 10. *)
Example scenario_chain :
  generateReactFlowData sampleRates
    (λ _ (_ : unit),
       mkProductionFlow [sampleSmelter; sampleAssembler]
         [mkProductionEdge "smelter_0_iron_bar" "assembler_1_iron_plate" "iron_bar" 10])
    (mkFlowDataGenerationParams "iron_plate" 10 ∅) ()
  = Some (mkFlowData
            [mkFlowNode "node_0"
               (mkExpandedNode sampleSmelter "smelter_0_iron_bar" None None None) 55;
             mkFlowNode "node_1"
               (mkExpandedNode sampleAssembler "assembler_1_iron_plate" None None None) 55]
            [mkFlowEdge "node_0-node_1-iron_bar" "node_0" "node_1" "iron_bar" 10]).
Proof. vm_compute. reflexivity. Qed.

Lemma demand_conservation_yielding_witness :
  buildingId (sampleExcavator 10) = "ore_excavator" ∧
  ∃ st' origins,
    expandNode sampleRates (sampleSources ["impure"; "normal"]) (sampleExcavator 10)
      emptyExpansion = Some st' ∧
    expandedNodes st' = origins ∧ length origins = 2%nat ∧
    (Num.sum (servedDemand <$> origins) == 100)%Q.
Proof.
  split; [reflexivity|].
  destruct (demand_conservation_yielding sampleRates
              (sampleSources ["impure"; "normal"]) (sampleExcavator 10)
              emptyExpansion eq_refl)
    as (st' & origins & Hrun & Hnodes & Hlen & _ & Hsum & _).
  exists st', origins. split; [exact Hrun|]. split; [exact Hnodes|].
  split; [exact Hlen|]. rewrite Hsum; [reflexivity|].
  repeat constructor.
Defined.

(** In the rational embedding too, a source of rate 0 breaks the
    conservation: for a demand of 60 and the sources ["normal"] and
    ["depleted"], the two expanded nodes serve 30 together. *)
Lemma demand_conservation_zero_rate_counterexample :
  ∃ st,
    expandNodes sampleRates (sampleSources ["normal"; "depleted"])
      [sampleExcavator 6] emptyExpansion = Some st ∧
    length (expandedNodes st) = 2%nat ∧
    (totalDemand (sampleExcavator 6) == 60)%Q ∧
    (Num.sum (servedDemand <$> expandedNodes st) == 30)%Q ∧
    ¬ (Num.sum (servedDemand <$> expandedNodes st)
         == totalDemand (sampleExcavator 6))%Q.
Proof.
  eexists. split; [vm_compute; reflexivity|].
  split; [reflexivity|]. split; [reflexivity|]. split; [reflexivity|].
  intros H. vm_compute in H. discriminate H.
Qed.

Lemma edge_amounts_sum_witness :
  sampleKeyMap !! "ore_excavator_0_iron_ore" = Some [0; 1; 2]%nat ∧
  sampleKeyMap !! "smelter_0_iron_bar" = Some [3%nat] ∧
  ∃ emitted,
    distributeEdge sampleKeyMap
      (mkProductionEdge "ore_excavator_0_iron_ore" "smelter_0_iron_bar" "iron_ore" 9) []
      = Some emitted ∧
    (Num.sum (amount <$> emitted) == 9)%Q.
Proof.
  assert (sampleKeyMap !! "ore_excavator_0_iron_ore" = Some [0; 1; 2]%nat) as Hf
    by (vm_compute; reflexivity).
  assert (sampleKeyMap !! "smelter_0_iron_bar" = Some [3%nat]) as Ht
    by (vm_compute; reflexivity).
  split; [exact Hf|]. split; [exact Ht|].
  destruct (edge_amounts_sum sampleKeyMap
              (mkProductionEdge "ore_excavator_0_iron_ore" "smelter_0_iron_bar"
                 "iron_ore" 9) [] [0; 1; 2]%nat [3%nat] Hf Ht
              ltac:(simpl; lia) ltac:(simpl; lia))
    as (emitted & Hrun & _ & Hsum & _).
  exists emitted. split; [exact Hrun|]. apply Hsum. reflexivity.
Defined.

(** In the rational embedding too, a split destination multiplies the flow:
    an edge of amount 10 from a node that is not split into an ore excavator
    with two sources gives two edges of amount 10, so the amounts leaving the
    one source position add up to 20. *)
Lemma edge_amounts_sum_counterexample :
  ∃ st es,
    expandNodes sampleRates (sampleSources ["impure"; "normal"])
      (flow_nodes (sampleBackFlow 10)) emptyExpansion = Some st ∧
    nodeKeyToExpandedIndexes st !! "smelter_0_iron_bar" = Some [0%nat] ∧
    nodeKeyToExpandedIndexes st !! "ore_excavator_0_iron_ore" = Some [1; 2]%nat ∧
    distributeEdges (nodeKeyToExpandedIndexes st) (flow_edges (sampleBackFlow 10)) []
      = Some es ∧
    ¬ (Num.sum (amount <$> es) == 10)%Q ∧
    ¬ (Num.sum (amount <$> filter (λ x, fromIndex x = 0%nat) es) == 10)%Q.
Proof.
  eexists _, _. split; [vm_compute; reflexivity|].
  split; [vm_compute; reflexivity|]. split; [vm_compute; reflexivity|].
  split; [vm_compute; reflexivity|].
  split; intros H; vm_compute in H; discriminate H.
Qed.

Lemma edge_fan_out_witness :
  sampleKeyMap !! "ore_excavator_0_iron_ore" = Some [0; 1; 2]%nat ∧
  sampleKeyMap !! "smelter_0_iron_bar" = Some [3%nat] ∧
  ∃ emitted,
    distributeEdge sampleKeyMap
      (mkProductionEdge "ore_excavator_0_iron_ore" "smelter_0_iron_bar" "iron_ore" 9) []
      = Some emitted ∧
    length emitted = 3%nat ∧
    (λ x, (fromIndex x, toIndex x)) <$> emitted = [(0, 3); (1, 3); (2, 3)]%nat ∧
    Forall (λ x, (amount x == 3)%Q ∧ toIndex x = 3%nat) emitted.
Proof.
  assert (sampleKeyMap !! "ore_excavator_0_iron_ore" = Some [0; 1; 2]%nat) as Hf
    by (vm_compute; reflexivity).
  assert (sampleKeyMap !! "smelter_0_iron_bar" = Some [3%nat]) as Ht
    by (vm_compute; reflexivity).
  split; [exact Hf|]. split; [exact Ht|].
  destruct (edge_fan_out sampleKeyMap
              (mkProductionEdge "ore_excavator_0_iron_ore" "smelter_0_iron_bar"
                 "iron_ore" 9) [] [0; 1; 2]%nat [3%nat] Hf Ht
              ltac:(simpl; lia) ltac:(simpl; lia))
    as (emitted & Hrun & Hlen & Hpairs & _ & Hscenario).
  exists emitted. split; [exact Hrun|]. split; [exact Hlen|]. split; [exact Hpairs|].
  apply (Hscenario 3%nat); reflexivity.
Defined.

(** Scenario 4 on the whole function: the edge of amount 9 out of a source
    split three ways becomes three edges into the node of the smelter. *)
Example scenario_fan_out :
  edges <$> generateReactFlowData sampleRates (λ _ (_ : unit), sampleFlow 9 9)
              (mkFlowDataGenerationParams "iron_bar" 3
                 (sampleSources ["impure"; "normal"; "pure"])) ()
  = Some [mkFlowEdge "node_0-node_3-iron_ore" "node_0" "node_3" "iron_ore" (9 # 3);
          mkFlowEdge "node_1-node_3-iron_ore" "node_1" "node_3" "iron_ore" (9 # 3);
          mkFlowEdge "node_2-node_3-iron_ore" "node_2" "node_3" "iron_ore" (9 # 3)].
Proof. vm_compute. reflexivity. Qed.

(** Scenario 5: two base edges between the same nodes with the same item
    collide on one id; the flow graph keeps the first (amount 4) only. *)
Example scenario_collision :
  edges <$> generateReactFlowData sampleRates
              (λ _ (_ : unit),
                 mkProductionFlow [sampleSmelter; sampleAssembler]
                   [mkProductionEdge "smelter_0_iron_bar" "assembler_1_iron_plate"
                      "iron_bar" 4;
                    mkProductionEdge "smelter_0_iron_bar" "assembler_1_iron_plate"
                      "iron_bar" 6])
              (mkFlowDataGenerationParams "iron_plate" 10 ∅) ()
  = Some [mkFlowEdge "node_0-node_1-iron_bar" "node_0" "node_1" "iron_bar" (4 # 1)].
Proof. vm_compute. reflexivity. Qed.


Lemma two_sources_split_witness :
  buildingId (sampleExcavator 10) = "ore_excavator" ∧
  ∃ st e1 e2,
    expandNodes sampleRates (sampleSources ["impure"; "normal"]) [sampleExcavator 10]
      emptyExpansion = Some st ∧
    expandedNodes st = [e1; e2] ∧
    (servedDemand e1 == 50)%Q ∧ (buildingCount (node e1) == 10)%Q ∧
    (servedDemand e2 == 50)%Q ∧ (buildingCount (node e2) == 5)%Q ∧
    (outputAmount (node e1) == 5)%Q ∧ (outputAmount (node e2) == 10)%Q.
Proof.
  split; [reflexivity|].
  destruct (two_sources_split sampleRates (sampleSources ["impure"; "normal"])
              (sampleExcavator 10) eq_refl)
    as (st & Hrun & _ & _ & Hscenario).
  destruct (Hscenario "impure" "normal" eq_refl ltac:(reflexivity) ltac:(reflexivity)
              ltac:(reflexivity)) as (e1 & e2 & H).
  exists st, e1, e2. split; [exact Hrun|]. exact H.
Defined.

Lemma dangling_edge_dropped_witness :
  ((sampleKeyMap !! "crusher_0_sand" = None ∨ sampleKeyMap !! "crusher_0_sand" = Some [])
   ∨ (sampleKeyMap !! "smelter_0_iron_bar" = None
      ∨ sampleKeyMap !! "smelter_0_iron_bar" = Some [])) ∧
  distributeEdges sampleKeyMap
    [mkProductionEdge "ore_excavator_0_iron_ore" "smelter_0_iron_bar" "iron_ore" 9;
     mkProductionEdge "crusher_0_sand" "smelter_0_iron_bar" "sand" 4] []
  = distributeEdges sampleKeyMap
      [mkProductionEdge "ore_excavator_0_iron_ore" "smelter_0_iron_bar" "iron_ore" 9] [].
Proof.
  assert (sampleKeyMap !! "crusher_0_sand" = None) as Hf by (vm_compute; reflexivity).
  split; [left; left; exact Hf|].
  destruct (dangling_edge_dropped sampleKeyMap
              (mkProductionEdge "crusher_0_sand" "smelter_0_iron_bar" "sand" 4)
              (or_introl (or_introl Hf))) as [_ Hskip].
  exact (proj2 (Hskip
    [mkProductionEdge "ore_excavator_0_iron_ore" "smelter_0_iron_bar" "iron_ore" 9]
    [] [])).
Defined.

Lemma target_amount_fallback_witness :
  ((0 <= 0)%Q ∧ validAmount 0 = 1%Q) ∧ ((-3 <= 0)%Q ∧ validAmount (-3) = 1%Q) ∧
  ((0 < 5)%Q ∧ validAmount 5 = 5%Q).
Proof.
  pose (flow := λ (_ : ProductionFlowParams) (_ : unit), sampleFlow 9 9).
  assert (0 <= 0)%Q as H0 by (intros H; discriminate H).
  assert (-3 <= 0)%Q as H3 by (intros H; discriminate H).
  assert (0 < 5)%Q as H5 by reflexivity.
  split; [|split].
  - split; [exact H0|].
    exact (proj1 (proj1 (target_amount_fallback sampleRates flow "iron_bar" 0 ∅ ()) H0)).
  - split; [exact H3|].
    exact (proj1 (proj1 (target_amount_fallback sampleRates flow "iron_bar" (-3) ∅ ()) H3)).
  - split; [exact H5|].
    exact (proj1 (proj2 (target_amount_fallback sampleRates flow "iron_bar" 5 ∅ ()) H5)).
Defined.

(** C10, as stated, fails for an item without a configured list: the mapping
    passed to [buildProductionFlow] has no entry for it, not 'normal'. *)
Lemma base_graph_absent_item_counterexample :
  pf_oreQualityByItem
    (productionFlowParams
       (mkFlowDataGenerationParams "iron_bar" 3 (sampleSources ["pure"; "impure"])))
    !! "copper_ore" = None ∧
  ¬ (pf_oreQualityByItem
       (productionFlowParams
          (mkFlowDataGenerationParams "iron_bar" 3 (sampleSources ["pure"; "impure"])))
       !! "copper_ore" = Some "normal").
Proof.
  assert (pf_oreQualityByItem
            (productionFlowParams
               (mkFlowDataGenerationParams "iron_bar" 3 (sampleSources ["pure"; "impure"])))
            !! "copper_ore" = None) as H by (vm_compute; reflexivity).
  split; [exact H|]. rewrite H. discriminate.
Qed.

Lemma base_graph_uses_first_source_witness :
  pf_oreQualityByItem
    (productionFlowParams
       (mkFlowDataGenerationParams "iron_bar" 3 (sampleSources ["pure"; "impure"])))
    !! "iron_ore" = Some "pure" ∧
  pf_oreQualityByItem
    (productionFlowParams (mkFlowDataGenerationParams "iron_bar" 3 (sampleSources [])))
    !! "iron_ore" = Some "normal".
Proof.
  pose (flow := λ (_ : ProductionFlowParams) (_ : unit), sampleFlow 9 9).
  split.
  - rewrite (proj1 (base_graph_uses_first_source flow "iron_bar" 3
                      (sampleSources ["pure"; "impure"]) ()) "iron_ore").
    vm_compute. reflexivity.
  - rewrite (proj1 (base_graph_uses_first_source flow "iron_bar" 3
                      (sampleSources []) ()) "iron_ore").
    vm_compute. reflexivity.
Defined.

(** ** The further properties on the sample inputs *)

Lemma key_map_lists_origin_order_witness :
  ∃ st,
    expandNodes sampleRates (sampleSources ["impure"; "normal"; "pure"])
      ([sampleExcavator 9] ++ sampleSmelter :: [sampleAssembler]) emptyExpansion
      = Some st ∧
    NoDup (nodeKey <$> [sampleExcavator 9] ++ sampleSmelter :: [sampleAssembler]) ∧
    nodeKeyToExpandedIndexes st !! "smelter_0_iron_bar" = Some [3%nat] ∧
    expandedNodes st !! 3%nat
      = Some (mkExpandedNode sampleSmelter "smelter_0_iron_bar" None None None).
Proof.
  destruct (expandNodes sampleRates (sampleSources ["impure"; "normal"; "pure"])
              ([sampleExcavator 9] ++ sampleSmelter :: [sampleAssembler]) emptyExpansion)
    as [st|] eqn:Hrun; [|vm_compute in Hrun; discriminate Hrun].
  assert (NoDup (nodeKey <$> [sampleExcavator 9] ++ sampleSmelter :: [sampleAssembler]))
    as Hnd by (refine (bool_decide_unpack _ _); vm_compute; exact I).
  exists st. split; [reflexivity|]. split; [exact Hnd|].
  destruct (key_map_lists_origin_order sampleRates
              (sampleSources ["impure"; "normal"; "pure"])
              [sampleExcavator 9] sampleSmelter [sampleAssembler] st Hnd Hrun)
    as [Hmap Hentries].
  split; [exact Hmap|]. exact (Hentries 0%nat ltac:(vm_compute; lia)).
Defined.

Lemma edge_kept_iff_endpoints_known_witness :
  ∃ st,
    expandNodes sampleRates (sampleSources ["impure"; "normal"])
      [sampleExcavator 9; sampleSmelter] emptyExpansion = Some st ∧
    distributeEdge (nodeKeyToExpandedIndexes st)
      (mkProductionEdge "crusher_0_sand" "smelter_0_iron_bar" "sand" 4) [] = Some [].
Proof.
  destruct (expandNodes sampleRates (sampleSources ["impure"; "normal"])
              [sampleExcavator 9; sampleSmelter] emptyExpansion)
    as [st|] eqn:Hrun; [|vm_compute in Hrun; discriminate Hrun].
  exists st. split; [reflexivity|].
  apply (proj1 (edge_kept_iff_endpoints_known sampleRates
                  (sampleSources ["impure"; "normal"])
                  [sampleExcavator 9; sampleSmelter] st
                  (mkProductionEdge "crusher_0_sand" "smelter_0_iron_bar" "sand" 4) Hrun)).
  left. refine (bool_decide_unpack _ _). vm_compute. exact I.
Defined.

Lemma source_controls_valid_witness :
  ∃ st e,
    expandNodes sampleRates (sampleSources ["impure"; "normal"])
      [sampleExcavator 9; sampleSmelter] emptyExpansion = Some st ∧
    expandedNodes st !! 1%nat = Some e ∧
    sourceIndex e = Some 1%nat ∧ oreQuality e = Some "normal" ∧
    showsRemoveSource e = true.
Proof.
  destruct (expandNodes sampleRates (sampleSources ["impure"; "normal"])
              [sampleExcavator 9; sampleSmelter] emptyExpansion)
    as [st|] eqn:Hrun; [|vm_compute in Hrun; discriminate Hrun].
  destruct (expandedNodes st !! 1%nat) as [e|] eqn:He.
  2: { exfalso. revert He. vm_compute in Hrun. injection Hrun as <-. discriminate. }
  exists st, e. split; [reflexivity|]. split; [exact He|].
  destruct (source_controls_valid sampleRates (sampleSources ["impure"; "normal"])
              [sampleExcavator 9; sampleSmelter] st e Hrun
              (list_elem_of_lookup_2 _ _ _ He))
    as (n & _ & _ & _ & _ & Hexc & _).
  revert He Hexc. vm_compute in Hrun. injection Hrun as <-.
  intros [= <-]. intros Hexc.
  split; [reflexivity|]. split; reflexivity.
Defined.

Lemma split_power_covers_count_witness :
  buildingId (sampleExcavator 6) = "ore_excavator" ∧
  (0 <= totalDemand (sampleExcavator 6))%Q ∧
  (0 <= powerPerBuilding (sampleExcavator 6))%Q ∧
  ∃ st' origins,
    expandNode sampleRates (sampleSources ["impure"; "depleted"]) (sampleExcavator 6)
      emptyExpansion = Some st' ∧
    expandedNodes st' = origins ∧
    Forall (λ e, (0 <= buildingCount (node e))%Q ∧
                 (buildingCount (node e) * 4 <= totalPower (node e))%Q) origins.
Proof.
  assert (0 <= totalDemand (sampleExcavator 6))%Q as Hd by (intros H; discriminate H).
  assert (0 <= powerPerBuilding (sampleExcavator 6))%Q as Hp by (intros H; discriminate H).
  split; [reflexivity|]. split; [exact Hd|]. split; [exact Hp|].
  destruct (split_power_covers_count sampleRates (sampleSources ["impure"; "depleted"])
              (sampleExcavator 6) emptyExpansion eq_refl Hd Hp)
    as (st' & origins & Hrun & Hnodes & Hall).
  exists st', origins. split; [exact Hrun|]. split; [exact Hnodes|].
  eapply Forall_impl; [exact Hall|]. intros e (H0 & _ & _ & Hcover). split; assumption.
Defined.

Lemma edge_fan_out_by_sources_witness :
  ∃ st emitted,
    expandNodes sampleRates (sampleSources ["impure"; "normal"; "pure"])
      (flow_nodes (sampleFlow 9 9)) emptyExpansion = Some st ∧
    NoDup (nodeKey <$> flow_nodes (sampleFlow 9 9)) ∧
    distributeEdge (nodeKeyToExpandedIndexes st)
      (mkProductionEdge "ore_excavator_0_iron_ore" "smelter_0_iron_bar" "iron_ore" 9) []
      = Some emitted ∧
    length emitted = 3%nat ∧
    Forall (λ x, itemId x = "iron_ore") emitted.
Proof.
  destruct (expandNodes sampleRates (sampleSources ["impure"; "normal"; "pure"])
              (flow_nodes (sampleFlow 9 9)) emptyExpansion)
    as [st|] eqn:Hrun; [|vm_compute in Hrun; discriminate Hrun].
  assert (NoDup (nodeKey <$> flow_nodes (sampleFlow 9 9))) as Hnd
    by (refine (bool_decide_unpack _ _); vm_compute; exact I).
  destruct (edge_fan_out_by_sources sampleRates
              (sampleSources ["impure"; "normal"; "pure"]) (flow_nodes (sampleFlow 9 9))
              st (sampleExcavator 9) sampleSmelter
              (mkProductionEdge "ore_excavator_0_iron_ore" "smelter_0_iron_bar"
                 "iron_ore" 9) [] Hnd
              ltac:(apply list_elem_of_here)
              ltac:(apply list_elem_of_further, list_elem_of_here)
              Hrun eq_refl eq_refl)
    as (emitted & Hemit & Hlen & Hall & _).
  exists st, emitted. split; [reflexivity|]. split; [exact Hnd|].
  split; [exact Hemit|]. split; [exact Hlen|]. exact Hall.
Defined.

(** The candidates of an id with underscores, and the chain of fallbacks of
    its image. *)
Example sample_candidates :
  candidates "ore_excavator"
  = ["/icons/buildings/ore_excavator.jpg"; "/icons/buildings/ore-excavator.jpg"] ∧
  candidates "smelter" = ["/icons/buildings/smelter.jpg"] ∧
  normalizedId "orbital-cargo_launcher" = "orbital_cargo_launcher" ∧
  normalizedId "orbital_cargo_launcher" = "orbital-cargo-launcher".
Proof. repeat split; vm_compute; reflexivity. Qed.

Example sample_fallback :
  onError (candidates "ore_excavator") (renderedImg "ore_excavator")
  = mkImgTarget (Some 1%nat) (Some "/icons/buildings/ore-excavator.jpg") false ∧
  onError (candidates "ore_excavator")
    (onError (candidates "ore_excavator") (renderedImg "ore_excavator"))
  = mkImgTarget (Some 1%nat) (Some "/icons/buildings/ore-excavator.jpg") true.
Proof. split; vm_compute; reflexivity. Qed.

Lemma distinct_base_edges_lose_nothing_witness :
  NoDup (edgeTriple <$> flow_edges (sampleFlow 9 9)) ∧
  ∃ fd,
    generateReactFlowData sampleRates (λ _ (_ : unit), sampleFlow 9 9)
      (mkFlowDataGenerationParams "iron_bar" 3
         (sampleSources ["impure"; "normal"; "pure"])) () = Some fd ∧
    length (edges fd) = 3%nat.
Proof.
  assert (NoDup (edgeTriple <$> flow_edges (sampleFlow 9 9))) as Hnd
    by (refine (bool_decide_unpack _ _); vm_compute; exact I).
  split; [exact Hnd|].
  destruct (distinct_base_edges_lose_nothing sampleRates (λ _ (_ : unit), sampleFlow 9 9)
              (mkFlowDataGenerationParams "iron_bar" 3
                 (sampleSources ["impure"; "normal"; "pure"])) () Hnd)
    as (st & es & fd & Hst & Hes & Hfd & _ & Hedges).
  exists fd. split; [exact Hfd|]. rewrite Hedges, length_fmap.
  revert Hes. vm_compute in Hst. injection Hst as <-.
  intros Hes. vm_compute in Hes. injection Hes as <-. reflexivity.
Defined.

(** ** The statements in doubles on the sample inputs *)

(** [Double.ceil] on a few doubles: a fraction, an integer, a negative
    fraction (the result is the negative zero), and the double next above 3. *)
Example double_ceil_samples :
  Double.ceil 0.5 = 1%float ∧ Double.ceil 2 = 2%float ∧
  Double.ceil (-0.5) = (-0)%float ∧ Double.ceil (-2.5) = (-2)%float ∧
  Double.ceil 0x1.8000000000001p+1 = 4%float ∧
  Double.ceil 0x1p52 = 0x1p52%float.
Proof. repeat split; vm_compute; reflexivity. Qed.

Lemma double_split_shares_witness :
  Double.buildingId (Double.sampleExcavator 10) = "ore_excavator" ∧
  ∃ origins,
    Double.expandedNodes
      (Double.expandNode Double.sampleRates (sampleSources ["impure"; "normal"])
         (Double.sampleExcavator 10) Double.emptyExpansion) = origins ∧
    length origins = 2%nat ∧
    Double.sum (Double.servedDemand <$> origins) = 100%float.
Proof.
  split; [reflexivity|].
  destruct (double_split_shares Double.sampleRates (sampleSources ["impure"; "normal"])
              (Double.sampleExcavator 10) Double.emptyExpansion eq_refl)
    as (origins & Hnodes & Hlen & _ & Hsum).
  exists origins. split; [exact Hnodes|]. split; [exact Hlen|].
  exact (Hsum "impure" "normal" ltac:(reflexivity) ltac:(reflexivity)
           ltac:(reflexivity) ltac:(reflexivity)).
Defined.

(** C1, as stated, fails in two ways.  With a source of rate 0 (demand 60,
    sources ["normal"] and ["depleted"]) the two expanded nodes serve 30
    together.  With positive rates only (demand 100, three sources of rate
    10) each node serves [((100 * (1 / 3)) / 10) * 10] and the three add up
    to a double below 100. *)
Lemma double_split_shares_counterexample :
  (length (Double.expandedNodes
             (Double.expandNode Double.sampleRates (sampleSources ["normal"; "depleted"])
                (Double.sampleExcavator 6) Double.emptyExpansion)) = 2%nat ∧
   Double.totalDemand (Double.sampleExcavator 6) = 60%float ∧
   Double.sum
     (Double.servedDemand
        <$> Double.expandedNodes
              (Double.expandNode Double.sampleRates (sampleSources ["normal"; "depleted"])
                 (Double.sampleExcavator 6) Double.emptyExpansion)) = 30%float ∧
   Double.sum
     (Double.servedDemand
        <$> Double.expandedNodes
              (Double.expandNode Double.sampleRates (sampleSources ["normal"; "depleted"])
                 (Double.sampleExcavator 6) Double.emptyExpansion))
     ≠ Double.totalDemand (Double.sampleExcavator 6)) ∧
  (length (Double.expandedNodes
             (Double.expandNode Double.sampleRates
                (sampleSources ["normal"; "normal"; "normal"])
                (Double.sampleExcavator 10) Double.emptyExpansion)) = 3%nat ∧
   Double.totalDemand (Double.sampleExcavator 10) = 100%float ∧
   (Double.sum
      (Double.servedDemand
         <$> Double.expandedNodes
               (Double.expandNode Double.sampleRates
                  (sampleSources ["normal"; "normal"; "normal"])
                  (Double.sampleExcavator 10) Double.emptyExpansion))
    <? 100)%float = true ∧
   Double.sum
     (Double.servedDemand
        <$> Double.expandedNodes
              (Double.expandNode Double.sampleRates
                 (sampleSources ["normal"; "normal"; "normal"])
                 (Double.sampleExcavator 10) Double.emptyExpansion))
     ≠ Double.totalDemand (Double.sampleExcavator 10)).
Proof.
  split.
  - split; [reflexivity|]. split; [reflexivity|]. split; [vm_compute; reflexivity|].
    intros H. apply (f_equal (λ x, (x =? 60)%float)) in H.
    vm_compute in H. discriminate H.
  - split; [reflexivity|]. split; [reflexivity|]. split; [vm_compute; reflexivity|].
    intros H. apply (f_equal (λ x, (x =? 100)%float)) in H.
    vm_compute in H. discriminate H.
Qed.

Lemma double_edge_amounts_witness :
  sampleKeyMap !! Double.edge_from (Double.sampleEdge 9) = Some [0; 1; 2]%nat ∧
  sampleKeyMap !! Double.edge_to (Double.sampleEdge 9) = Some [3%nat] ∧
  ∃ emitted,
    Double.distributeEdge sampleKeyMap (Double.sampleEdge 9) [] = emitted ∧
    length emitted = 3%nat ∧
    Double.sum (Double.amount <$> emitted) = 9%float.
Proof.
  assert (sampleKeyMap !! Double.edge_from (Double.sampleEdge 9) = Some [0; 1; 2]%nat)
    as Hf by (vm_compute; reflexivity).
  assert (sampleKeyMap !! Double.edge_to (Double.sampleEdge 9) = Some [3%nat])
    as Ht by (vm_compute; reflexivity).
  split; [exact Hf|]. split; [exact Ht|].
  destruct (double_edge_amounts sampleKeyMap (Double.sampleEdge 9) []
              [0; 1; 2]%nat [3%nat] Hf Ht ltac:(simpl; lia) ltac:(simpl; lia))
    as (emitted & Hrun & Hlen & _ & _ & _ & _ & Hnine).
  exists emitted. split; [exact Hrun|]. split; [exact Hlen|].
  apply Hnine; reflexivity.
Defined.

(** C2, as stated, fails in two ways.  When the destination is split (an edge
    of amount 10, [F = 1], [T = 2]) the two emitted edges carry 10 each and
    add up to 20.  When it is not (an edge of amount 7, [F = 3], [T = 1]) the
    three emitted edges carry [7 * (1 / 3)] each and add up to a double below
    7. *)
Lemma double_edge_amounts_counterexample :
  (Double.nodeKeyToExpandedIndexes
     (Double.expandNodes Double.sampleRates (sampleSources ["impure"; "normal"])
        [Double.sampleSmelter; Double.sampleExcavator 1] Double.emptyExpansion)
     !! "smelter_0_iron_bar" = Some [0%nat] ∧
   Double.nodeKeyToExpandedIndexes
     (Double.expandNodes Double.sampleRates (sampleSources ["impure"; "normal"])
        [Double.sampleSmelter; Double.sampleExcavator 1] Double.emptyExpansion)
     !! "ore_excavator_0_iron_ore" = Some [1; 2]%nat ∧
   Double.amount
     <$> Double.distributeEdge
           (Double.nodeKeyToExpandedIndexes
              (Double.expandNodes Double.sampleRates (sampleSources ["impure"; "normal"])
                 [Double.sampleSmelter; Double.sampleExcavator 1] Double.emptyExpansion))
           (Double.sampleBackEdge 10) []
   = [10; 10]%float ∧
   Double.sum
     (Double.amount
        <$> Double.distributeEdge
              (Double.nodeKeyToExpandedIndexes
                 (Double.expandNodes Double.sampleRates (sampleSources ["impure"; "normal"])
                    [Double.sampleSmelter; Double.sampleExcavator 1] Double.emptyExpansion))
              (Double.sampleBackEdge 10) [])
   = 20%float) ∧
  (Double.nodeKeyToExpandedIndexes
     (Double.expandNodes Double.sampleRates (sampleSources ["impure"; "normal"; "pure"])
        [Double.sampleExcavator 1; Double.sampleSmelter] Double.emptyExpansion)
   = sampleKeyMap ∧
   length (Double.distributeEdge sampleKeyMap (Double.sampleEdge 7) []) = 3%nat ∧
   (Double.sum (Double.amount <$> Double.distributeEdge sampleKeyMap (Double.sampleEdge 7) [])
    <? 7)%float = true ∧
   Double.sum (Double.amount <$> Double.distributeEdge sampleKeyMap (Double.sampleEdge 7) [])
   ≠ Double.edge_amount (Double.sampleEdge 7)).
Proof.
  split.
  - repeat split; vm_compute; reflexivity.
  - split; [vm_compute; reflexivity|].
    split; [vm_compute; reflexivity|]. split; [vm_compute; reflexivity|].
    intros H. apply (f_equal (λ x, (x =? 7)%float)) in H.
    vm_compute in H. discriminate H.
Qed.

Lemma double_edge_fan_out_witness :
  sampleKeyMap !! Double.edge_from (Double.sampleEdge 9) = Some [0; 1; 2]%nat ∧
  sampleKeyMap !! Double.edge_to (Double.sampleEdge 9) = Some [3%nat] ∧
  ∃ emitted,
    Double.distributeEdge sampleKeyMap (Double.sampleEdge 9) [] = emitted ∧
    length emitted = 3%nat ∧
    (λ x, (Double.fromIndex x, Double.toIndex x)) <$> emitted
      = [(0, 3); (1, 3); (2, 3)]%nat ∧
    Forall (λ x, Double.amount x = 3%float ∧ Double.toIndex x = 3%nat) emitted.
Proof.
  assert (sampleKeyMap !! Double.edge_from (Double.sampleEdge 9) = Some [0; 1; 2]%nat)
    as Hf by (vm_compute; reflexivity).
  assert (sampleKeyMap !! Double.edge_to (Double.sampleEdge 9) = Some [3%nat])
    as Ht by (vm_compute; reflexivity).
  split; [exact Hf|]. split; [exact Ht|].
  destruct (double_edge_fan_out sampleKeyMap (Double.sampleEdge 9) []
              [0; 1; 2]%nat [3%nat] Hf Ht ltac:(simpl; lia) ltac:(simpl; lia))
    as (emitted & Hrun & Hlen & Hpairs & _ & Hscenario).
  exists emitted. split; [exact Hrun|]. split; [exact Hlen|]. split; [exact Hpairs|].
  apply (Hscenario 3%nat); reflexivity.
Defined.

(** C3, as stated, fails on the amount: for an edge of amount 10 out of a
    source split three ways, each of the three emitted edges carries
    [10 * (1 / 3)], which is not the double [10 / 3]. *)
Lemma double_edge_fan_out_counterexample :
  length (Double.distributeEdge sampleKeyMap (Double.sampleEdge 10) []) = 3%nat ∧
  Forall (λ x,
            Double.amount x = (10 * (1 / 3))%float ∧
            (Double.amount x =? 10 / 3)%float = false ∧
            (Double.amount x <? 10 / 3)%float = true ∧
            Double.amount x
            ≠ (Double.edge_amount (Double.sampleEdge 10) / Double.of_nat 3)%float)
    (Double.distributeEdge sampleKeyMap (Double.sampleEdge 10) []).
Proof.
  split; [vm_compute; reflexivity|].
  assert (Double.distributeEdge sampleKeyMap (Double.sampleEdge 10) []
          = Double.fanOut "iron_ore" (10 * (1 / 3))%float [0; 1; 2]%nat [3%nat]) as ->
    by (vm_compute; reflexivity).
  eapply Forall_impl; [apply double_fanOut_payload|]. intros x [_ ->].
  split; [reflexivity|]. split; [vm_compute; reflexivity|].
  split; [vm_compute; reflexivity|].
  intros H. apply (f_equal (λ y, (y =? 10 / 3)%float)) in H.
  vm_compute in H. discriminate H.
Qed.
